(** * DispatcherCore: routing, introspection and shutdown

    A shallow embedding of [quantum/impl/quantum_dispatcher_core_impl.h]
    (Bloomberg quantum).  The dispatcher owns three vectors of queues
    (coroutine queues, private I/O queues, shared I/O queues) and routes
    submitted tasks to them.  The queue classes themselves are used only
    through the [IQueue] interface, which is kept abstract here. *)

From Stdlib Require Import ZArith NArith Lia Bool String.
From stdpp Require Import base numbers list.

Local Open Scope N_scope.

(** ** Machine integers

    [size_t] values are [N] below [2^64], [int] values are [Z] in
    [[-2^31, 2^31)], [unsigned int] values are [N] below [2^32].  The
    conversions the code performs implicitly are written out. *)

Definition SIZE_MAX : N := 2 ^ 64 - 1.
Definition INT_MAX : Z := (2 ^ 31 - 1)%Z.
Definition INT_MIN : Z := (- 2 ^ 31)%Z.

Definition is_int (z : Z) : Prop := (INT_MIN <= z <= INT_MAX)%Z.

(** [size_t] arithmetic wraps modulo [2^64]. *)
Definition wrap_size_t (n : N) : N := n mod 2 ^ 64.

(** [(size_t) z] for an [int] [z]. *)
Definition size_t_of_int (z : Z) : N := Z.to_N (z mod 2 ^ 64).

(** [(unsigned int) z] for an [int] [z]. *)
Definition uint_of_int (z : Z) : N := Z.to_N (z mod 2 ^ 32).

(** [(int) n] for a [size_t] [n]: the low 32 bits read as two's complement. *)
Definition int_of_size_t (n : N) : Z :=
  let r := (Z.of_N n mod 2 ^ 32)%Z in
  if (r <? 2 ^ 31)%Z then r else (r - 2 ^ 32)%Z.

(** The indices [i, i+1, ..., i+k-1]. *)
Fixpoint range_from (i : N) (k : nat) : list N :=
  match k with
  | O => []
  | S k' => i :: range_from (N.succ i) k'
  end.

(** ** Outcomes, events and the dispatcher monad *)

(** The exceptions the dispatcher raises: [std::runtime_error] with its
    message (thrown by the dispatcher itself) and [std::out_of_range]
    (thrown by [std::vector::at]). *)
Inductive exn : Type :=
| runtime_error (msg : string)
| out_of_range.

(** How a call ends: it returns, it throws, it has undefined behaviour
    (an unchecked [operator[]] out of bounds, a remainder by zero), or the
    model of an unbounded loop ran out of fuel. *)
Inductive Outcome (A : Type) : Type :=
| Ok (a : A)
| Throw (e : exn)
| Undefined
| OutOfFuel.
Arguments Ok {A} a.
Arguments Throw {A} e.
Arguments Undefined {A}.
Arguments OutOfFuel {A}.

(** A call of a queue method, with what it returned where that matters. *)
Inductive Call (T : Type) : Type :=
| size_
| enqueue_ (t : T)
| tryEnqueue_ (t : T) (accepted : bool)
| signalEmptyCondition_ (b : bool)
| terminate_.
Arguments size_ {T}.
Arguments enqueue_ {T} t.
Arguments tryEnqueue_ {T} t accepted.
Arguments signalEmptyCondition_ {T} b.
Arguments terminate_ {T}.

(** A call on the [i]-th queue of one of the three vectors. *)
Inductive Event (Task IoTask : Type) : Type :=
| on_coro (i : N) (c : Call Task)
| on_io (i : N) (c : Call IoTask)
| on_shared (i : N) (c : Call IoTask).
Arguments on_coro {Task IoTask} i c.
Arguments on_io {Task IoTask} i c.
Arguments on_shared {Task IoTask} i c.

(** A computation over a state [S] that logs the queue calls it makes.
    A thrown exception keeps the state reached so far. *)
Definition M (E S A : Type) : Type := S -> Outcome A * S * list E.

Definition ret {E S A} (a : A) : M E S A := fun s => (Ok a, s, []).

Definition bind {E S A B} (m : M E S A) (k : A -> M E S B) : M E S B :=
  fun s =>
    match m s with
    | (Ok a, s1, tr1) =>
        match k a s1 with
        | (r, s2, tr2) => (r, s2, tr1 ++ tr2)
        end
    | (Throw e, s1, tr1) => (Throw e, s1, tr1)
    | (Undefined, s1, tr1) => (Undefined, s1, tr1)
    | (OutOfFuel, s1, tr1) => (OutOfFuel, s1, tr1)
    end.

Definition throw {E S A} (e : exn) : M E S A := fun s => (Throw e, s, []).
Definition undefined {E S A} : M E S A := fun s => (Undefined, s, []).
Definition out_of_fuel {E S A} : M E S A := fun s => (OutOfFuel, s, []).
Definition get {E S} : M E S S := fun s => (Ok s, s, []).

Declare Scope dispatch_scope.
Delimit Scope dispatch_scope with dispatch.
Notation "x <- m ;; k" := (bind m (fun x => k))
  (at level 100, m at next level, right associativity) : dispatch_scope.
Notation "m ;;; k" := (bind m (fun _ => k))
  (at level 100, right associativity) : dispatch_scope.

(** ** Interfaces of the classes the dispatcher uses *)

(** [IQueue]: what the dispatcher calls on a [TaskQueue] or an [IoQueue].
    [tryEnqueue] returns the queue with the task added, or [None] when it
    refuses the task and stays as it was. *)
Class IQueue (T Stats Q : Type) : Type := {
  q_size : Q -> N;
  q_empty : Q -> bool;
  q_stats : Q -> Stats;
  q_enqueue : T -> Q -> Q;
  q_tryEnqueue : T -> Q -> option Q;
  q_signalEmptyCondition : bool -> Q -> Q;
  q_pinToCore : N -> Q -> Q;
  q_terminate : Q -> Q;
}.

(** [QueueStatistics]: a default-constructed value, [operator+] and
    [operator+=] (the value its left operand has afterwards). *)
Class IQueueStatistics (Stats : Type) : Type := {
  stats_default : Stats;
  stats_add : Stats -> Stats -> Stats;
  stats_add_assign : Stats -> Stats -> Stats;
}.

(** [queue.stats().reset()]: the queue with its statistics reset. *)
Class IResetStats (Q : Type) : Type := {
  q_resetStats : Q -> Q;
}.

(** [IQueue::QueueType]. *)
Inductive QueueType : Type := Coro | Io | All.

(** [Task] (quantum_task.h), reduced to the members the dispatcher reads
    or writes; [_ctx] stands for the identity of the shared object. *)
Record Task : Type := mkTask {
  _ctx : nat;
  _queueId : Z;
  _isHighPriority : bool;
}.

(** [Task::getQueueId] and [Task::setQueueId], the accessors of [_queueId]. *)
Definition getQueueId (t : Task) : Z := _queueId t.
Definition setQueueId (queueId : Z) (t : Task) : Task :=
  {| _ctx := _ctx t; _queueId := queueId; _isHighPriority := _isHighPriority t |}.

(** The options of [Configuration] that the constructor reads.  The range
    for [Any] is taken at the type of the member it is assigned to,
    [std::pair<size_t, size_t>]. *)
Record Configuration : Type := mkConfiguration {
  numCoroutineThreads : Z;
  numIoThreads : Z;
  pinCoroutineThreadsToCores : bool;
  coroQueueIdRangeForAny : N * N;
}.

(** ** The dispatcher's state *)

Record DispatcherCore (TaskQueue IoQueue : Type) : Type := mkDispatcherCore {
  _coroQueues : list TaskQueue;
  _sharedIoQueues : list IoQueue;
  _ioQueues : list IoQueue;
  _loadBalanceSharedIoQueues : bool;
  _terminated : bool;
  _coroQueueIdRangeForAny : N * N;
}.
Arguments mkDispatcherCore {TaskQueue IoQueue}.
Arguments _coroQueues {TaskQueue IoQueue} d.
Arguments _sharedIoQueues {TaskQueue IoQueue} d.
Arguments _ioQueues {TaskQueue IoQueue} d.
Arguments _loadBalanceSharedIoQueues {TaskQueue IoQueue} d.
Arguments _terminated {TaskQueue IoQueue} d.
Arguments _coroQueueIdRangeForAny {TaskQueue IoQueue} d.

(** The state [postAsyncIo] runs in: the object, and the function-local
    [static size_t index], of which the process has one. *)
Record Frame (TaskQueue IoQueue : Type) : Type := mkFrame {
  static_index : N;
  this : DispatcherCore TaskQueue IoQueue;
}.
Arguments mkFrame {TaskQueue IoQueue}.
Arguments static_index {TaskQueue IoQueue} f.
Arguments this {TaskQueue IoQueue} f.

(** ** A reference queue

    The dispatcher never looks inside a queue, so the theorems below hold
    for every implementation of [IQueue]; the one defined here serves to
    run the dispatcher on concrete inputs. *)

(** Modelled from the spec: [TaskQueue] and [IoQueue], whose sources are
    not among the files embedded here.  A queue is a FIFO of task pointers
    with a terminated flag and a CPU pin index; the signals sent to its
    empty condition are recorded, and [tryEnqueue] skips a full queue. *)
Record Fifo (T : Type) : Type := mkFifo {
  items : list T;
  capacity : N;
  signalled : list bool;
  pinnedTo : option N;
  terminated : bool;
}.
Arguments mkFifo {T} items capacity signalled pinnedTo terminated.
Arguments items {T} f.
Arguments capacity {T} f.
Arguments signalled {T} f.
Arguments pinnedTo {T} f.
Arguments terminated {T} f.

Definition fifo_enqueue {T} (t : T) (q : Fifo T) : Fifo T :=
  mkFifo (items q ++ [t]) (capacity q) (signalled q) (pinnedTo q) (terminated q).

Definition fifo_tryEnqueue {T} (t : T) (q : Fifo T) : option (Fifo T) :=
  if N.of_nat (length (items q)) <? capacity q then Some (fifo_enqueue t q) else None.

Definition fifo_signal {T} (b : bool) (q : Fifo T) : Fifo T :=
  mkFifo (items q) (capacity q) (signalled q ++ [b]) (pinnedTo q) (terminated q).

Definition fifo_pin {T} (core : N) (q : Fifo T) : Fifo T :=
  mkFifo (items q) (capacity q) (signalled q) (Some core) (terminated q).

Definition fifo_terminate {T} (q : Fifo T) : Fifo T :=
  mkFifo (items q) (capacity q) (signalled q) (pinnedTo q) true.

(** Modelled from the spec: [QueueStatistics], reduced to one of its
    counters, the current depth. *)
#[export] Instance counter_stats : IQueueStatistics N := {|
  stats_default := 0;
  stats_add := N.add;
  stats_add_assign := N.add;
|}.

#[export] Instance fifo_queue {T} : IQueue T N (Fifo T) := {|
  q_size q := N.of_nat (length (items q));
  q_empty q := match items q with [] => true | _ => false end;
  q_stats q := N.of_nat (length (items q));
  q_enqueue := fifo_enqueue;
  q_tryEnqueue := fifo_tryEnqueue;
  q_signalEmptyCondition := fifo_signal;
  q_pinToCore := fifo_pin;
  q_terminate := fifo_terminate;
|}.

(** Modelled from the spec: [IoTask], reduced to its identity and the
    queue id it is submitted with. *)
Record SimpleIoTask : Type := mkIoTask {
  io_ctx : nat;
  io_queueId : Z;
}.

(** Modelled from the spec: the sentinels of [IQueue::QueueId], which
    the spec gives as [QueueId::All = -1] and [QueueId::Any = -2]. *)
Definition All_id : Z := (-1)%Z.
Definition Any_id : Z := (-2)%Z.

(** An idle queue of unbounded capacity holding [n] copies of a task. *)
Definition filled {T} (t : T) (n : nat) : Fifo T :=
  mkFifo (replicate n t) SIZE_MAX [] None false.

(** A queue of the given capacity holding [n] copies of a task. *)
Definition bounded {T} (t : T) (n : nat) (cap : N) : Fifo T :=
  mkFifo (replicate n t) cap [] None false.

Definition old_task : Task := mkTask 0 0 false.
Definition old_io_task : SimpleIoTask := mkIoTask 0 0.

(** Scenario S3: four coroutine queues of depths 5, 2, 2 and 7, one
    private and one shared I/O queue, the default range for [Any]. *)
Definition dispatcher_S3 : DispatcherCore (Fifo Task) (Fifo SimpleIoTask) :=
  {| _coroQueues := [filled old_task 5; filled old_task 2; filled old_task 2; filled old_task 7];
     _sharedIoQueues := [filled old_io_task 0];
     _ioQueues := [filled old_io_task 0];
     _loadBalanceSharedIoQueues := false;
     _terminated := false;
     _coroQueueIdRangeForAny := (0, 4) |}.

(** Two shared I/O queues and three private ones, load balancing off. *)
Definition dispatcher_io : DispatcherCore (Fifo Task) (Fifo SimpleIoTask) :=
  {| _coroQueues := [filled old_task 1; filled old_task 0];
     _sharedIoQueues := [filled old_io_task 1; filled old_io_task 0];
     _ioQueues := [filled old_io_task 0; filled old_io_task 2; filled old_io_task 0];
     _loadBalanceSharedIoQueues := false;
     _terminated := false;
     _coroQueueIdRangeForAny := (0, 2) |}.

(** Three shared I/O queues, load balancing on; shared queue 1 is full. *)
Definition dispatcher_lb : DispatcherCore (Fifo Task) (Fifo SimpleIoTask) :=
  {| _coroQueues := [filled old_task 0];
     _sharedIoQueues := [filled old_io_task 0; bounded old_io_task 2 2; filled old_io_task 1];
     _ioQueues := [filled old_io_task 0];
     _loadBalanceSharedIoQueues := true;
     _terminated := false;
     _coroQueueIdRangeForAny := (0, 1) |}.

(** Two shared I/O queues that accept, load balancing on. *)
Definition dispatcher_rr : DispatcherCore (Fifo Task) (Fifo SimpleIoTask) :=
  {| _coroQueues := [filled old_task 0];
     _sharedIoQueues := [filled old_io_task 0; filled old_io_task 0];
     _ioQueues := [filled old_io_task 0];
     _loadBalanceSharedIoQueues := true;
     _terminated := false;
     _coroQueueIdRangeForAny := (0, 1) |}.

(** A configuration asking for four coroutine threads, two I/O threads
    and the range [[1, 3)] for [Any]. *)
Definition config_4_2 : Configuration :=
  {| numCoroutineThreads := 4;
     numIoThreads := 2;
     pinCoroutineThreadsToCores := true;
     coroQueueIdRangeForAny := (1, 3) |}.

(** A second dispatcher with two accepting shared queues. *)
Definition dispatcher_rr_B : DispatcherCore (Fifo Task) (Fifo SimpleIoTask) :=
  {| _coroQueues := [filled old_task 2; filled old_task 0];
     _sharedIoQueues := [filled old_io_task 3; filled old_io_task 1];
     _ioQueues := [filled old_io_task 0; filled old_io_task 0];
     _loadBalanceSharedIoQueues := true;
     _terminated := false;
     _coroQueueIdRangeForAny := (0, 2) |}.

(** What the constructors build with [numCoroutineThreads = -1] when
    [hardware_concurrency()] returns 0: no coroutine queue, the range
    [[0, 0)]. *)
Definition dispatcher_no_coro : DispatcherCore (Fifo Task) (Fifo SimpleIoTask) :=
  {| _coroQueues := [];
     _sharedIoQueues := [filled old_io_task 0];
     _ioQueues := [filled old_io_task 0];
     _loadBalanceSharedIoQueues := false;
     _terminated := false;
     _coroQueueIdRangeForAny := (0, 0) |}.

(** Modelled from the spec: a queue whose statistics are kept apart from
    its contents, as the counter of the tasks enqueued since the last
    reset. *)
Record Counted (T : Type) : Type := mkCounted {
  contents : Fifo T;
  enqueued : N;
}.
Arguments mkCounted {T} contents enqueued.
Arguments contents {T} c.
Arguments enqueued {T} c.

#[export] Instance counted_queue {T} : IQueue T N (Counted T) := {|
  q_size q := q_size (contents q);
  q_empty q := q_empty (contents q);
  q_stats q := enqueued q;
  q_enqueue t q := mkCounted (fifo_enqueue t (contents q)) (enqueued q + 1);
  q_tryEnqueue t q :=
    match fifo_tryEnqueue t (contents q) with
    | Some c => Some (mkCounted c (enqueued q + 1))
    | None => None
    end;
  q_signalEmptyCondition b q := mkCounted (fifo_signal b (contents q)) (enqueued q);
  q_pinToCore core q := mkCounted (fifo_pin core (contents q)) (enqueued q);
  q_terminate q := mkCounted (fifo_terminate (contents q)) (enqueued q);
|}.

#[export] Instance counted_reset {T} : IResetStats (Counted T) := {|
  q_resetStats q := mkCounted (contents q) 0;
|}.

(** Two coroutine, one shared and two private queues with statistics. *)
Definition dispatcher_counted : DispatcherCore (Counted Task) (Counted SimpleIoTask) :=
  {| _coroQueues := [mkCounted (filled old_task 2) 9; mkCounted (filled old_task 0) 4];
     _sharedIoQueues := [mkCounted (filled old_io_task 1) 3];
     _ioQueues := [mkCounted (filled old_io_task 0) 5; mkCounted (filled old_io_task 3) 3];
     _loadBalanceSharedIoQueues := false;
     _terminated := false;
     _coroQueueIdRangeForAny := (0, 2) |}.

(** Two full shared I/O queues, load balancing on. *)
Definition dispatcher_full : DispatcherCore (Fifo Task) (Fifo SimpleIoTask) :=
  {| _coroQueues := [filled old_task 0];
     _sharedIoQueues := [bounded old_io_task 1 1; bounded old_io_task 0 0];
     _ioQueues := [filled old_io_task 0];
     _loadBalanceSharedIoQueues := true;
     _terminated := false;
     _coroQueueIdRangeForAny := (0, 1) |}.

(** Tasks submitted with the queue id [Any]. *)
Definition any_task : Task := mkTask 7 Any_id true.
Definition any_io_task : SimpleIoTask := mkIoTask 7 Any_id.

(** The shared queue that accepted the task, read off the calls made. *)
Fixpoint selected_shared {Task IoTask} (tr : list (Event Task IoTask)) : option N :=
  match tr with
  | [] => None
  | on_shared j (tryEnqueue_ _ true) :: _ => Some j
  | on_shared j (enqueue_ _) :: _ => Some j
  | _ :: tr' => selected_shared tr'
  end.

(** ** The dispatcher *)

Section DispatcherCore.

(** The classes the dispatcher is built from.  [IoTask] is used only
    through [getQueueId]; [TaskQueue] and [IoQueue] only through
    [IQueue]; [QueueStatistics] only through its operators. *)
Context {IoTask QueueStatistics TaskQueue IoQueue : Type}.
Context {StatsOps : IQueueStatistics QueueStatistics}.
Context {TaskQueueOps : IQueue Task QueueStatistics TaskQueue}.
Context {IoQueueOps : IQueue IoTask QueueStatistics IoQueue}.

(** [IoTask::getQueueId]. *)
Variable io_getQueueId : IoTask -> Z.

(** The sentinels [(int)IQueue::QueueId::All] and [(int)IQueue::QueueId::Any]. *)
Variables QueueId_All QueueId_Any : Z.

(** [std::thread::hardware_concurrency()], an [unsigned int]. *)
Variable hardware_concurrency : N.

(** The queue constructors: [TaskQueue()], [TaskQueue(config)], [IoQueue()]
    and [IoQueue(config, sharedIoQueues)], the flag telling whether the
    pointer to the shared queues is non-null; and [Configuration()]. *)
Variable TaskQueue_default : TaskQueue.
Variable TaskQueue_new : Configuration -> TaskQueue.
Variable IoQueue_default : IoQueue.
Variable IoQueue_new : Configuration -> bool -> IoQueue.
Variable Configuration_default : Configuration.

Abbreviation Core := (DispatcherCore TaskQueue IoQueue).
Abbreviation Ev := (Event Task IoTask).
Abbreviation Method := (M Ev Core).
Abbreviation Frame' := (Frame TaskQueue IoQueue).

Local Open Scope dispatch_scope.

(** *** Vectors of queues *)

(** [v.size()]. *)
Definition vec_size {A} (v : list A) : N := N.of_nat (length v).

Definition set_coroQueues (f : list TaskQueue -> list TaskQueue) (d : Core)
  : Core :=
  {| _coroQueues := f (_coroQueues d);
     _sharedIoQueues := _sharedIoQueues d;
     _ioQueues := _ioQueues d;
     _loadBalanceSharedIoQueues := _loadBalanceSharedIoQueues d;
     _terminated := _terminated d;
     _coroQueueIdRangeForAny := _coroQueueIdRangeForAny d |}.

Definition set_sharedIoQueues (f : list IoQueue -> list IoQueue) (d : Core)
  : Core :=
  {| _coroQueues := _coroQueues d;
     _sharedIoQueues := f (_sharedIoQueues d);
     _ioQueues := _ioQueues d;
     _loadBalanceSharedIoQueues := _loadBalanceSharedIoQueues d;
     _terminated := _terminated d;
     _coroQueueIdRangeForAny := _coroQueueIdRangeForAny d |}.

Definition set_ioQueues (f : list IoQueue -> list IoQueue) (d : Core)
  : Core :=
  {| _coroQueues := _coroQueues d;
     _sharedIoQueues := _sharedIoQueues d;
     _ioQueues := f (_ioQueues d);
     _loadBalanceSharedIoQueues := _loadBalanceSharedIoQueues d;
     _terminated := _terminated d;
     _coroQueueIdRangeForAny := _coroQueueIdRangeForAny d |}.

Definition set_terminated (b : bool) (d : Core) : Core :=
  {| _coroQueues := _coroQueues d;
     _sharedIoQueues := _sharedIoQueues d;
     _ioQueues := _ioQueues d;
     _loadBalanceSharedIoQueues := _loadBalanceSharedIoQueues d;
     _terminated := b;
     _coroQueueIdRangeForAny := _coroQueueIdRangeForAny d |}.

(** [_coroQueues[i].size()]: unchecked access. *)
Definition coro_index_size (i : N) : Method N :=
  fun d =>
    match _coroQueues d !! N.to_nat i with
    | Some q => (Ok (q_size q), d, [on_coro i size_])
    | None => (Undefined, d, [])
    end.

(** [_coroQueues.at(i).enqueue(task)]: checked access. *)
Definition coro_at_enqueue (i : N) (task : Task) : Method unit :=
  fun d =>
    match _coroQueues d !! N.to_nat i with
    | Some q =>
        (Ok tt, set_coroQueues (<[N.to_nat i := q_enqueue task q]>) d,
         [on_coro i (enqueue_ task)])
    | None => (Throw out_of_range, d, [])
    end.

(** [_ioQueues.at(i).enqueue(task)]. *)
Definition io_at_enqueue (i : N) (task : IoTask) : Method unit :=
  fun d =>
    match _ioQueues d !! N.to_nat i with
    | Some q =>
        (Ok tt, set_ioQueues (<[N.to_nat i := q_enqueue task q]>) d,
         [on_io i (enqueue_ task)])
    | None => (Throw out_of_range, d, [])
    end.

(** [_sharedIoQueues[i].enqueue(task)]: unchecked access. *)
Definition shared_index_enqueue (i : N) (task : IoTask) : Method unit :=
  fun d =>
    match _sharedIoQueues d !! N.to_nat i with
    | Some q =>
        (Ok tt, set_sharedIoQueues (<[N.to_nat i := q_enqueue task q]>) d,
         [on_shared i (enqueue_ task)])
    | None => (Undefined, d, [])
    end.

(** [_sharedIoQueues.at(i).tryEnqueue(task)]. *)
Definition shared_at_tryEnqueue (i : N) (task : IoTask) : Method bool :=
  fun d =>
    match _sharedIoQueues d !! N.to_nat i with
    | Some q =>
        match q_tryEnqueue task q with
        | Some q' =>
            (Ok true, set_sharedIoQueues (<[N.to_nat i := q']>) d,
             [on_shared i (tryEnqueue_ task true)])
        | None => (Ok false, d, [on_shared i (tryEnqueue_ task false)])
        end
    | None => (Throw out_of_range, d, [])
    end.

(** The events of [for (auto&& queue : v) queue.c()], in the order of [v]. *)
Definition calls_on {T Q} (on : N -> Call T -> Ev) (c : Call T) (v : list Q) : list Ev :=
  imap (fun i _ => on (N.of_nat i) c) v.

(** [for (auto&& queue : _coroQueues) queue.terminate()]. *)
Definition terminate_coroQueues : Method unit :=
  fun d => (Ok tt, set_coroQueues (fmap q_terminate) d,
            calls_on on_coro terminate_ (_coroQueues d)).

(** [for (auto&& queue : _ioQueues) queue.terminate()]. *)
Definition terminate_ioQueues : Method unit :=
  fun d => (Ok tt, set_ioQueues (fmap q_terminate) d,
            calls_on on_io terminate_ (_ioQueues d)).

(** [for (auto&& queue : _sharedIoQueues) queue.terminate()]. *)
Definition terminate_sharedIoQueues : Method unit :=
  fun d => (Ok tt, set_sharedIoQueues (fmap q_terminate) d,
            calls_on on_shared terminate_ (_sharedIoQueues d)).

(** [for (auto&& queue : _ioQueues) queue.signalEmptyCondition(false)]. *)
Definition signal_ioQueues : Method unit :=
  fun d => (Ok tt, set_ioQueues (fmap (q_signalEmptyCondition false)) d,
            calls_on on_io (signalEmptyCondition_ false) (_ioQueues d)).

(** [_terminated.test_and_set()]: sets the flag, returns what it was. *)
Definition test_and_set : Method bool :=
  fun d => (Ok (_terminated d), set_terminated true d, []).

(** *** Construction *)

(** The size both constructors give [_coroQueues]: the conditional
    expression has type [unsigned int]. *)
Definition coroutine_thread_count (n : Z) : N :=
  if (n =? -1)%Z then hardware_concurrency
  else if (n =? 0)%Z then 1
  else uint_of_int n.

(** The size both constructors give [_ioQueues] and [_sharedIoQueues]. *)
Definition io_thread_count (n : Z) : N :=
  if (n <=? 0)%Z then 1 else size_t_of_int n.

(** The loop that pins queue [i] to core [i % cores]. *)
Definition pin_coroQueues (pin : bool) (v : list TaskQueue) : Outcome (list TaskQueue) :=
  if pin then
    let cores := hardware_concurrency in
    if (cores =? 0) && negb (vec_size v =? 0) then Undefined
    else Ok (imap (fun i q => q_pinToCore (N.of_nat i mod cores) q) v)
  else Ok v.

(** [DispatcherCore(int, int, bool)]. *)
Definition DispatcherCore_new (numCoroutineThreads numIoThreads : Z)
    (pinCoroutineThreadsToCores : bool) : Outcome Core :=
  let coro := replicate (N.to_nat (coroutine_thread_count numCoroutineThreads))
                        TaskQueue_default in
  let shared := replicate (N.to_nat (io_thread_count numIoThreads)) IoQueue_default in
  let io := replicate (N.to_nat (io_thread_count numIoThreads))
                      (IoQueue_new Configuration_default true) in
  match pin_coroQueues pinCoroutineThreadsToCores coro with
  | Ok coro' =>
      Ok {| _coroQueues := coro';
            _sharedIoQueues := shared;
            _ioQueues := io;
            _loadBalanceSharedIoQueues := false;
            _terminated := false;
            _coroQueueIdRangeForAny := (0, vec_size coro) |}
  | Throw e => Throw e
  | Undefined => Undefined
  | OutOfFuel => OutOfFuel
  end.

(** [DispatcherCore(const Configuration&)]. *)
Definition DispatcherCore_of_config (config : Configuration) : Outcome Core :=
  let coro := replicate (N.to_nat (coroutine_thread_count (numCoroutineThreads config)))
                        (TaskQueue_new config) in
  let shared := replicate (N.to_nat (io_thread_count (numIoThreads config)))
                          (IoQueue_new config false) in
  let io := replicate (N.to_nat (io_thread_count (numIoThreads config)))
                      (IoQueue_new config true) in
  match pin_coroQueues (pinCoroutineThreadsToCores config) coro with
  | Ok coro' =>
      let range := coroQueueIdRangeForAny config in
      Ok {| _coroQueues := coro';
            _sharedIoQueues := shared;
            _ioQueues := io;
            _loadBalanceSharedIoQueues := false;
            _terminated := false;
            _coroQueueIdRangeForAny :=
              if (range.1 <? range.2) && (range.1 <? vec_size coro')
                 && (range.2 <=? vec_size coro')
              then range
              else (0, vec_size coro') |}
  | Throw e => Throw e
  | Undefined => Undefined
  | OutOfFuel => OutOfFuel
  end.

Definition getNumCoroutineThreads (d : Core) : Z :=
  int_of_size_t (vec_size (_coroQueues d)).

Definition getNumIoThreads (d : Core) : Z :=
  int_of_size_t (vec_size (_ioQueues d)).

Definition getCoroQueueIdRangeForAny (d : Core) : N * N :=
  _coroQueueIdRangeForAny d.

(** *** terminate and the destructor *)

Definition terminate : Method unit :=
  was_set <- test_and_set ;;
  if negb was_set then
    (terminate_coroQueues ;;; terminate_ioQueues ;;; terminate_sharedIoQueues)
  else ret tt.

(** [~DispatcherCore()]. *)
Definition DispatcherCore_destructor : Method unit := terminate.

(** *** Introspection *)

(** [size_t size = 0; for (auto&& queue : v) size += queue.size();]
    continued from [size]. *)
Definition add_sizes {T Q} `{IQueue T QueueStatistics Q} (v : list Q) (size : N) : N :=
  fold_left (fun size queue => wrap_size_t (size + q_size queue)) v size.

(** [for (auto&& queue : v) if (!queue.empty()) return false;] falls
    through exactly when every queue is empty. *)
Definition all_empty {T Q} `{IQueue T QueueStatistics Q} (v : list Q) : bool :=
  forallb q_empty v.

(** [for (auto&& queue : v) stats += queue.stats();] continued from [stats]. *)
Definition add_stats {T Q} `{IQueue T QueueStatistics Q} (v : list Q)
    (stats : QueueStatistics) : QueueStatistics :=
  fold_left (fun stats queue => stats_add_assign stats (q_stats queue)) v stats.

Definition coroSize (queueId : Z) : Method N :=
  d <- get ;;
  if (queueId =? QueueId_All)%Z then ret (add_sizes (_coroQueues d) 0)
  else if (queueId >=? int_of_size_t (vec_size (_coroQueues d)))%Z || (queueId <? 0)%Z
  then throw (runtime_error "Invalid coroutine queue id")
  else match _coroQueues d !! N.to_nat (size_t_of_int queueId) with
       | Some q => ret (q_size q)
       | None => throw out_of_range
       end.

Definition coroEmpty (queueId : Z) : Method bool :=
  d <- get ;;
  if (queueId =? QueueId_All)%Z then ret (all_empty (_coroQueues d))
  else if (queueId >=? int_of_size_t (vec_size (_coroQueues d)))%Z || (queueId <? 0)%Z
  then throw (runtime_error "Invalid coroutine queue id")
  else match _coroQueues d !! N.to_nat (size_t_of_int queueId) with
       | Some q => ret (q_empty q)
       | None => throw out_of_range
       end.

Definition ioSize (queueId : Z) : Method N :=
  d <- get ;;
  if (queueId =? QueueId_All)%Z
  then ret (add_sizes (_sharedIoQueues d) (add_sizes (_ioQueues d) 0))
  else if (queueId =? QueueId_Any)%Z then ret (add_sizes (_sharedIoQueues d) 0)
  else match _ioQueues d !! N.to_nat (size_t_of_int queueId) with
       | Some q => ret (q_size q)
       | None => throw out_of_range
       end.

Definition ioEmpty (queueId : Z) : Method bool :=
  d <- get ;;
  if (queueId =? QueueId_All)%Z
  then ret (if all_empty (_sharedIoQueues d) then all_empty (_ioQueues d) else false)
  else if (queueId =? QueueId_Any)%Z then ret (all_empty (_sharedIoQueues d))
  else match _ioQueues d !! N.to_nat (size_t_of_int queueId) with
       | Some q => ret (q_empty q)
       | None => throw out_of_range
       end.

Definition coroStats (queueId : Z) : Method QueueStatistics :=
  d <- get ;;
  if (queueId =? QueueId_All)%Z then ret (add_stats (_coroQueues d) stats_default)
  else if (queueId >=? int_of_size_t (vec_size (_coroQueues d)))%Z || (queueId <? 0)%Z
  then throw (runtime_error "Invalid coroutine queue id")
  else match _coroQueues d !! N.to_nat (size_t_of_int queueId) with
       | Some q => ret (q_stats q)
       | None => throw out_of_range
       end.

Definition ioStats (queueId : Z) : Method QueueStatistics :=
  d <- get ;;
  if (queueId =? QueueId_All)%Z
  then ret (add_stats (_sharedIoQueues d) (add_stats (_ioQueues d) stats_default))
  else if (queueId =? QueueId_Any)%Z then ret (add_stats (_sharedIoQueues d) stats_default)
  else if (queueId >=? int_of_size_t (vec_size (_ioQueues d)))%Z || (queueId <? 0)%Z
  then throw (runtime_error "Invalid IO queue id")
  else match _ioQueues d !! N.to_nat (size_t_of_int queueId) with
       | Some q => ret (q_stats q)
       | None => throw out_of_range
       end.

Definition size (type : QueueType) (queueId : Z) : Method N :=
  match type with
  | All =>
      if negb (queueId =? QueueId_All)%Z
      then throw (runtime_error "Cannot specify queue id")
      else (c <- coroSize QueueId_All ;;
            i <- ioSize QueueId_All ;;
            ret (wrap_size_t (c + i)))
  | Coro => coroSize queueId
  | Io => ioSize queueId
  end.

Definition empty (type : QueueType) (queueId : Z) : Method bool :=
  match type with
  | All =>
      if negb (queueId =? QueueId_All)%Z
      then throw (runtime_error "Cannot specify queue id")
      else (c <- coroEmpty QueueId_All ;;
            if c then ioEmpty QueueId_All else ret false)
  | Coro => coroEmpty queueId
  | Io => ioEmpty queueId
  end.

Definition stats (type : QueueType) (queueId : Z) : Method QueueStatistics :=
  match type with
  | All =>
      if negb (queueId =? QueueId_All)%Z
      then throw (runtime_error "Cannot specify queue id")
      else (c <- coroStats QueueId_All ;;
            i <- ioStats QueueId_All ;;
            ret (stats_add c i))
  | Coro => coroStats queueId
  | Io => ioStats queueId
  end.

(** *** post *)

(** The loop of [post] over the range for [Any], with [k] iterations
    left before [i] reaches the end of the range: it reads the size of
    queue [i], keeps the smallest size seen and where it was seen, and
    breaks once that size is 0. *)
Fixpoint post_scan (k : nat) (i numTasks index : N) : Method N :=
  match k with
  | O => ret index
  | S k' =>
      queueSize <- coro_index_size i ;;
      let numTasks' := if queueSize <? numTasks then queueSize else numTasks in
      let index' := if queueSize <? numTasks then i else index in
      if numTasks' =? 0 then ret index'
      else post_scan k' (N.succ i) numTasks' index'
  end.

Definition post (task : option Task) : Method unit :=
  match task with
  | None => ret tt
  | Some t =>
      t' <- (if (getQueueId t =? QueueId_Any)%Z then
               d <- get ;;
               let range := _coroQueueIdRangeForAny d in
               index <- post_scan (N.to_nat (range.2 - range.1)) range.1 SIZE_MAX 0 ;;
               ret (setQueueId (int_of_size_t index) t)
             else
               d <- get ;;
               if (getQueueId t >=? int_of_size_t (vec_size (_coroQueues d)))%Z
               then throw (runtime_error "Queue id out of bounds")
               else ret t) ;;
      coro_at_enqueue (size_t_of_int (getQueueId t')) t'
  end.

(** *** postAsyncIo *)

Abbreviation StaticMethod := (M Ev Frame').

(** Runs a method of the object inside a frame. *)
Definition on_this {A} (m : Method A) : StaticMethod A :=
  fun s =>
    match m (this s) with
    | (r, d, tr) => (r, {| static_index := static_index s; this := d |}, tr)
    end.

(** [++index] on the static counter. *)
Definition pre_increment_index : StaticMethod N :=
  fun s =>
    let index := wrap_size_t (static_index s + 1) in
    (Ok index, {| static_index := index; this := this s |}, []).

(** [while (1) { if (_sharedIoQueues.at(++index % _sharedIoQueues.size())
    .tryEnqueue(task)) break; }], at most [fuel] iterations of it. *)
Fixpoint postAsyncIo_loop (fuel : nat) (task : IoTask) : StaticMethod unit :=
  match fuel with
  | O => out_of_fuel
  | S fuel' =>
      index <- pre_increment_index ;;
      s <- get ;;
      let n := vec_size (_sharedIoQueues (this s)) in
      if n =? 0 then undefined
      else
        accepted <- on_this (shared_at_tryEnqueue (index mod n) task) ;;
        if accepted : bool then ret tt else postAsyncIo_loop fuel' task
  end.

Definition postAsyncIo (fuel : nat) (task : option IoTask) : StaticMethod unit :=
  match task with
  | None => ret tt
  | Some t =>
      s <- get ;;
      if (io_getQueueId t =? QueueId_Any)%Z then
        if _loadBalanceSharedIoQueues (this s) then postAsyncIo_loop fuel t
        else on_this (shared_index_enqueue 0 t ;;; signal_ioQueues)
      else
        if (io_getQueueId t >=? int_of_size_t (vec_size (_ioQueues (this s))))%Z
        then throw (runtime_error "Queue id out of bounds")
        else on_this (io_at_enqueue (size_t_of_int (io_getQueueId t)) t)
  end.


(** *** Predicates of the statements *)

Implicit Types (d : Core) (t : Task) (i j : N).

(** The depth of coroutine queue [j], when there is such a queue. *)
Definition depth d j : option N := q_size <$> (_coroQueues d !! N.to_nat j).

(** [index] is the lowest index of a queue of minimal depth among the
    queues [lo .. hi-1]. *)
Definition shortest_in_range d (lo hi index : N) : Prop :=
  lo <= index < hi /\
  exists s, depth d index = Some s /\
    (forall j sj, lo <= j < hi -> depth d j = Some sj -> s <= sj) /\
    (forall j sj, lo <= j < index -> depth d j = Some sj -> s < sj).

(** [stop] is the first index in [lo .. hi-1] of an empty queue, or
    [hi-1] when no queue of the range is empty. *)
Definition first_empty_or_last d (lo hi stop : N) : Prop :=
  lo <= stop < hi /\
  (forall j sj, lo <= j < stop -> depth d j = Some sj -> sj <> 0) /\
  (N.succ stop = hi \/ depth d stop = Some 0).

(** The class invariant the constructors aim at: the range for [Any] is
    a non-empty range of queue indices, and the number of queues fits
    an [int]. *)
Definition range_valid d : Prop :=
  (_coroQueueIdRangeForAny d).1 < (_coroQueueIdRangeForAny d).2 /\
  (_coroQueueIdRangeForAny d).2 <= vec_size (_coroQueues d) /\
  (Z.of_N (vec_size (_coroQueues d)) <= INT_MAX)%Z.

(** No queue holds [numeric_limits<size_t>::max()] tasks. *)
Definition depths_below_max d : Prop :=
  forall q, q ∈ _coroQueues d -> q_size q < SIZE_MAX.

(** The calls [_coroQueues[j].size()] for [j] from [i] to [stop]. *)
Definition size_reads (i stop : N) : list Ev :=
  (fun j => on_coro j size_) <$> range_from i (N.to_nat (N.succ stop - i)).

(** The calls of [c] on the queues [0 .. n-1] of a vector, in order. *)
Definition calls_in_order {T} (on : N -> Call T -> Ev) (c : Call T) (n : nat) : list Ev :=
  (fun j => on j c) <$> range_from 0 n.

(** The dispatcher with every queue terminated and the flag set. *)
Definition all_terminated d : Core :=
  {| _coroQueues := q_terminate <$> _coroQueues d;
     _sharedIoQueues := q_terminate <$> _sharedIoQueues d;
     _ioQueues := q_terminate <$> _ioQueues d;
     _loadBalanceSharedIoQueues := _loadBalanceSharedIoQueues d;
     _terminated := true;
     _coroQueueIdRangeForAny := _coroQueueIdRangeForAny d |}.

(** An event that hands a task to a private I/O queue. *)
Definition gives_to_private (e : Ev) : bool :=
  match e with
  | on_io _ (enqueue_ _) => true
  | on_io _ (tryEnqueue_ _ accepted) => accepted
  | _ => false
  end.

(** An event that hands a task to any queue. *)
Definition gives_task (e : Ev) : bool :=
  match e with
  | on_coro _ (enqueue_ _) | on_io _ (enqueue_ _) | on_shared _ (enqueue_ _) => true
  | on_coro _ (tryEnqueue_ _ accepted) | on_io _ (tryEnqueue_ _ accepted)
  | on_shared _ (tryEnqueue_ _ accepted) => accepted
  | _ => false
  end.

(** The static index after [m] increments. *)
Definition advance (index : N) (m : nat) : N := wrap_size_t (index + N.of_nat m).

(** The shared queue the round-robin index [index] designates. *)
Definition slot d (index : N) : N := index mod vec_size (_sharedIoQueues d).

(** Whether the shared queue designated by [index] takes the task. *)
Definition accepts_at d (task : IoTask) (index : N) : bool :=
  match _sharedIoQueues d !! N.to_nat (slot d index) with
  | Some q => match q_tryEnqueue task q with Some _ => true | None => false end
  | None => false
  end.

(** The [k]-th attempt counted from [index] is the first one that a
    shared queue accepts. *)
Definition first_accepted d (task : IoTask) (index : N) (k : nat) : Prop :=
  (1 <= k)%nat /\ accepts_at d task (advance index k) = true /\
  forall a : nat, (1 <= a < k)%nat -> accepts_at d task (advance index a) = false.

(** The refused attempts before the [k]-th. *)
Definition refusals d (task : IoTask) (index : N) (k : nat) : list Ev :=
  (fun a : nat => on_shared (slot d (advance index a)) (tryEnqueue_ task false))
    <$> seq 1 (k - 1).

(** The sum of the sizes of the queues of a vector. *)
Definition sum_sizes {T Q} `{IQueue T QueueStatistics Q} (v : list Q) : N :=
  foldr (fun queue sum => q_size queue + sum) 0 v.

(** *** resetStats *)

Context {TaskQueueReset : IResetStats TaskQueue}.
Context {IoQueueReset : IResetStats IoQueue}.

(** [resetStats]: the statistics of every coroutine queue, then of every
    shared I/O queue, then of every private I/O queue are reset.  The call
    [stats().reset()] is not one of the logged queue methods, so the trace
    stays empty. *)
Definition resetStats : Method unit :=
  fun d =>
    (Ok tt,
     set_ioQueues (fmap q_resetStats)
       (set_sharedIoQueues (fmap q_resetStats)
          (set_coroQueues (fmap q_resetStats) d)),
     []).

(** What no operation changes: the number of queues of each vector, the
    load-balancing flag and the range for [Any]. *)
Definition shape d : nat * nat * nat * bool * (N * N) :=
  (length (_coroQueues d), length (_sharedIoQueues d), length (_ioQueues d),
   _loadBalanceSharedIoQueues d, _coroQueueIdRangeForAny d).

(** ** Theorems *)

(** *** Conversions between the integer types *)

Lemma int_of_size_t_small n : (Z.of_N n <= INT_MAX)%Z -> int_of_size_t n = Z.of_N n.
Proof.
  unfold INT_MAX, int_of_size_t. intros Hn.
  rewrite Z.mod_small by lia.
  destruct (Z.ltb_spec (Z.of_N n) (2 ^ 31)); lia.
Qed.

Lemma size_t_of_int_nonneg z : (0 <= z <= INT_MAX)%Z -> size_t_of_int z = Z.to_N z.
Proof.
  unfold INT_MAX, size_t_of_int. intros Hz. rewrite Z.mod_small by lia. reflexivity.
Qed.

Lemma size_t_of_int_neg z : (INT_MIN <= z < 0)%Z -> size_t_of_int z = Z.to_N (2 ^ 64 + z).
Proof.
  unfold INT_MIN, size_t_of_int. intros Hz. f_equal.
  symmetry. apply (Z.mod_unique_pos _ _ (-1)); lia.
Qed.

Lemma lookup_vec_size {A} (v : list A) i : i < vec_size v -> is_Some (v !! N.to_nat i).
Proof. unfold vec_size. intros Hi. apply lookup_lt_is_Some. lia. Qed.

Lemma lookup_vec_ge {A} (v : list A) i : vec_size v <= i -> v !! N.to_nat i = None.
Proof. unfold vec_size. intros Hi. apply lookup_ge_None. lia. Qed.

(** *** post *)

Lemma post_scan_step k' i numTasks index d q :
  _coroQueues d !! N.to_nat i = Some q ->
  post_scan (S k') i numTasks index d =
    let numTasks' := if q_size q <? numTasks then q_size q else numTasks in
    let index' := if q_size q <? numTasks then i else index in
    if numTasks' =? 0 then (Ok index', d, [on_coro i size_])
    else match post_scan k' (N.succ i) numTasks' index' d with
         | (r, d', tr) => (r, d', on_coro i size_ :: tr)
         end.
Proof.
  intros Hq. cbn [post_scan]. unfold bind at 1, coro_index_size. rewrite Hq.
  cbn zeta. destruct (_ =? 0); [reflexivity |].
  destruct (post_scan _ _ _ _ d) as [[r d'] tr]. reflexivity.
Qed.

Lemma range_from_succ i n :
  i <= n -> range_from i (N.to_nat (N.succ n - i))
            = i :: range_from (N.succ i) (N.to_nat (N.succ n - N.succ i)).
Proof.
  intros Hi. replace (N.to_nat (N.succ n - i)) with (S (N.to_nat (N.succ n - N.succ i))) by lia.
  reflexivity.
Qed.

(** The loop invariant of the scan: [numTasks] is non-zero and below
    every depth seen so far, and [index] is where it was first seen,
    unless nothing has been seen yet. *)
Lemma post_scan_spec d lo hi :
  lo < hi -> hi <= vec_size (_coroQueues d) -> depths_below_max d ->
  forall (k : nat) i numTasks index,
    i + N.of_nat k = hi -> lo <= i ->
    numTasks <> 0 ->
    (forall j sj, lo <= j < i -> depth d j = Some sj -> numTasks <= sj) ->
    (lo <= index < i /\ depth d index = Some numTasks /\
       (forall j sj, lo <= j < index -> depth d j = Some sj -> numTasks < sj))
    \/ (i = lo /\ numTasks = SIZE_MAX) ->
    exists found stop,
      shortest_in_range d lo hi found /\
      first_empty_or_last d lo hi stop /\
      i <= N.succ stop /\
      post_scan k i numTasks index d = (Ok found, d, size_reads i stop).
Proof.
  intros Hlohi Hhi Hmax k.
  induction k as [| k IH]; intros i numTasks index Hik Hlo Hnz Hseen Hidx.
  - (* the range is exhausted *)
    assert (i = hi) by lia. subst i.
    destruct Hidx as [(Hin & Hd & Hlow) | [? _]]; [| lia].
    exists index, (N.pred hi). split; [| split; [| split]].
    + split; [lia |]. exists numTasks. auto.
    + split; [lia |]. split; [| left; lia].
      intros j sj Hj Hdj. pose proof (Hseen j sj ltac:(lia) Hdj). lia.
    + lia.
    + unfold size_reads. replace (N.succ (N.pred hi) - hi) with 0 by lia. reflexivity.
  - (* one more queue to read *)
    assert (Hi : i < hi) by lia.
    destruct (lookup_vec_size (_coroQueues d) i) as [q Hq]; [lia |].
    assert (Hdi : depth d i = Some (q_size q)) by (unfold depth; rewrite Hq; reflexivity).
    assert (Hqmax : q_size q < SIZE_MAX).
    { apply Hmax. eapply list_elem_of_lookup_2. exact Hq. }
    rewrite (post_scan_step _ _ _ _ _ _ Hq). cbn zeta.
    destruct (N.ltb_spec (q_size q) numTasks) as [Hlt | Hge].
    + (* a new minimum *)
      destruct (N.eqb_spec (q_size q) 0) as [Hz | Hnz'].
      * (* an empty queue: break *)
        exists i, i. split; [| split; [| split]].
        -- split; [lia |]. exists (q_size q). split; [exact Hdi |]. split.
           ++ intros j sj _ _. lia.
           ++ intros j sj Hj Hdj. pose proof (Hseen j sj ltac:(lia) Hdj). lia.
        -- split; [lia |]. split.
           ++ intros j sj Hj Hdj. pose proof (Hseen j sj ltac:(lia) Hdj). lia.
           ++ right. rewrite Hdi, Hz. reflexivity.
        -- lia.
        -- unfold size_reads. replace (N.to_nat (N.succ i - i)) with 1%nat by lia.
           reflexivity.
      * destruct (IH (N.succ i) (q_size q) i) as (found & stop & Hf & Hs & Hle & Heq);
          [lia | lia | exact Hnz' | | | ].
        -- intros j sj Hj Hdj. destruct (N.eq_dec j i) as [-> | Hne].
           ++ rewrite Hdi in Hdj. injection Hdj as <-. lia.
           ++ pose proof (Hseen j sj ltac:(lia) Hdj). lia.
        -- left. split; [lia |]. split; [exact Hdi |].
           intros j sj Hj Hdj. pose proof (Hseen j sj ltac:(lia) Hdj). lia.
        -- exists found, stop. split; [exact Hf |]. split; [exact Hs |].
           split; [lia |]. rewrite Heq. unfold size_reads.
           rewrite (range_from_succ i stop) by lia. reflexivity.
    + (* not smaller than the minimum so far *)
      destruct Hidx as [(Hin & Hd & Hlow) | [_ ->]]; [| lia].
      destruct (N.eqb_spec numTasks 0) as [? | _]; [contradiction |].
      destruct (IH (N.succ i) numTasks index) as (found & stop & Hf & Hs & Hle & Heq);
        [lia | lia | exact Hnz | | | ].
      * intros j sj Hj Hdj. destruct (N.eq_dec j i) as [-> | Hne].
        -- rewrite Hdi in Hdj. injection Hdj as <-. lia.
        -- pose proof (Hseen j sj ltac:(lia) Hdj). lia.
      * left. split; [lia |]. split; [exact Hd | exact Hlow].
      * exists found, stop. split; [exact Hf |]. split; [exact Hs |].
        split; [lia |]. rewrite Heq. unfold size_reads.
        rewrite (range_from_succ i stop) by lia. reflexivity.
Qed.

Lemma size_t_int_round_trip n :
  (Z.of_N n <= INT_MAX)%Z -> size_t_of_int (int_of_size_t n) = n.
Proof.
  intros Hn. rewrite int_of_size_t_small by assumption.
  rewrite size_t_of_int_nonneg by lia. apply N2Z.id.
Qed.

(** [post] with [Any] on a dispatcher whose range is valid: the scan
    reads the queues from the start of the range up to the first empty
    one (or the last), and the task, its id overwritten, is enqueued on
    the lowest-index shortest queue of the range. *)
Lemma post_any_spec d t :
  getQueueId t = QueueId_Any -> range_valid d -> depths_below_max d ->
  let lo := (_coroQueueIdRangeForAny d).1 in
  let hi := (_coroQueueIdRangeForAny d).2 in
  exists index stop q,
    shortest_in_range d lo hi index /\
    first_empty_or_last d lo hi stop /\
    _coroQueues d !! N.to_nat index = Some q /\
    post (Some t) d =
      (Ok tt,
       set_coroQueues (<[N.to_nat index := q_enqueue (setQueueId (Z.of_N index) t) q]>) d,
       size_reads lo stop ++ [on_coro index (enqueue_ (setQueueId (Z.of_N index) t))]).
Proof.
  intros Hany (Hlohi & Hhi & Hint) Hmax lo hi.
  destruct (post_scan_spec d lo hi Hlohi Hhi Hmax (N.to_nat (hi - lo)) lo SIZE_MAX 0)
    as (index & stop & Hshort & Hstop & _ & Hscan).
  - subst lo hi. lia.
  - lia.
  - discriminate.
  - intros j sj Hj. lia.
  - right. split; reflexivity.
  - assert (Hidx : index < vec_size (_coroQueues d)) by (destruct Hshort as [? _]; lia).
    destruct (lookup_vec_size _ _ Hidx) as [q Hq].
    exists index, stop, q. split; [exact Hshort |]. split; [exact Hstop |].
    split; [exact Hq |].
    unfold post. rewrite Hany, Z.eqb_refl.
    unfold bind, get, ret. fold lo hi. rewrite Hscan.
    rewrite int_of_size_t_small by lia.
    change (getQueueId (setQueueId (Z.of_N index) t)) with (Z.of_N index).
    rewrite size_t_of_int_nonneg by lia. rewrite N2Z.id.
    unfold coro_at_enqueue. rewrite Hq. rewrite !app_nil_r. reflexivity.
Qed.

(** C7: [post] of a task whose queue id is not [Any] and lies outside
    [[0, numCoroutineThreads)] signals an error and enqueues the task
    on no queue: the dispatcher and its queues stay as they were and no
    queue method is called.  An id at or above the number of queues
    meets the dispatcher's own check ([std::runtime_error]), a negative
    one, the sentinel [All] included, the bounds check of [vector::at]
    ([std::out_of_range]). *)
Theorem post_out_of_bounds d t :
  getQueueId t <> QueueId_Any -> is_int (getQueueId t) ->
  (Z.of_N (vec_size (_coroQueues d)) <= INT_MAX)%Z ->
  (getQueueId t < 0 \/ Z.of_N (vec_size (_coroQueues d)) <= getQueueId t)%Z ->
  post (Some t) d =
    (Throw (if (getQueueId t <? 0)%Z then out_of_range
            else runtime_error "Queue id out of bounds"), d, []).
Proof.
  intros Hany [Hmin Hmax] Hn Hout.
  unfold post. apply Z.eqb_neq in Hany. rewrite Hany.
  unfold bind, get, throw, ret. rewrite int_of_size_t_small by assumption.
  destruct (Z.ltb_spec (getQueueId t) 0) as [Hneg | Hpos].
  - destruct (Z.geb_spec (getQueueId t) (Z.of_N (vec_size (_coroQueues d)))); [lia |].
    unfold coro_at_enqueue.
    rewrite size_t_of_int_neg by (unfold INT_MIN in *; lia).
    rewrite lookup_vec_ge; [reflexivity |].
    unfold INT_MIN, INT_MAX in *. lia.
  - destruct (Z.geb_spec (getQueueId t) (Z.of_N (vec_size (_coroQueues d)))); [| lia].
    reflexivity.
Qed.

(** *** terminate *)

Lemma range_from_map i n : range_from i n = (fun a => i + N.of_nat a) <$> seq 0 n.
Proof.
  revert i. induction n as [| n IH]; intros i; [reflexivity |].
  cbn [range_from seq fmap list_fmap]. f_equal; [lia |].
  rewrite IH, <- fmap_S_seq, <- list_fmap_compose.
  apply list_fmap_ext. intros _ a _. cbn. lia.
Qed.

Lemma calls_on_in_order {T Q} (on : N -> Call T -> Ev) c (v : list Q) :
  calls_on on c v = calls_in_order on c (length v).
Proof.
  unfold calls_on, calls_in_order. rewrite range_from_map, <- list_fmap_compose.
  rewrite (imap_seq_0 v (fun a : nat => on (N.of_nat a) c)). reflexivity.
Qed.

Lemma set_terminated_id d : _terminated d = true -> set_terminated true d = d.
Proof. destruct d; cbn. intros ->. reflexivity. Qed.

(** What one call of [terminate] does, by the flag it finds. *)
Lemma terminate_spec d :
  terminate d =
    if _terminated d then (Ok tt, d, [])
    else (Ok tt, all_terminated d,
          calls_in_order on_coro terminate_ (length (_coroQueues d))
          ++ calls_in_order on_io terminate_ (length (_ioQueues d))
          ++ calls_in_order on_shared terminate_ (length (_sharedIoQueues d))).
Proof.
  unfold terminate, bind, test_and_set, ret.
  destruct (_terminated d) eqn:Hflag; cbn [negb].
  - rewrite set_terminated_id by assumption. reflexivity.
  - unfold terminate_coroQueues, terminate_ioQueues, terminate_sharedIoQueues.
    rewrite !calls_on_in_order.
    destruct d; cbn in *; subst. reflexivity.
Qed.

(** *** postAsyncIo *)

Lemma calls_in_order_signal_no_gift (b : bool) n :
  forallb (fun e => negb (gives_to_private e))
          (calls_in_order on_io (signalEmptyCondition_ b) n) = true.
Proof.
  unfold calls_in_order. generalize 0. induction n as [| n IH]; intros i0; [reflexivity |].
  cbn. apply IH.
Qed.

(** Without load balancing an [Any] task goes to shared queue 0, and
    every private queue is then signalled. *)
Lemma postAsyncIo_any_spec fuel (s : Frame') (task : IoTask) q0 :
  io_getQueueId task = QueueId_Any ->
  _loadBalanceSharedIoQueues (this s) = false ->
  _sharedIoQueues (this s) !! 0%nat = Some q0 ->
  postAsyncIo fuel (Some task) s =
    (Ok tt,
     {| static_index := static_index s;
        this := set_ioQueues (fmap (q_signalEmptyCondition false))
                  (set_sharedIoQueues (<[0%nat := q_enqueue task q0]>) (this s)) |},
     on_shared 0 (enqueue_ task)
       :: calls_in_order on_io (signalEmptyCondition_ false) (length (_ioQueues (this s)))).
Proof.
  intros Hany Hlb Hq0. unfold postAsyncIo, bind at 1, get.
  rewrite Hany, Z.eqb_refl, Hlb.
  unfold on_this, bind, shared_index_enqueue, signal_ioQueues.
  change (N.to_nat 0) with 0%nat. rewrite Hq0, calls_on_in_order. reflexivity.
Qed.

Lemma advance_step index (a : nat) : advance (advance index 1) a = advance index (S a).
Proof.
  unfold advance, wrap_size_t. rewrite N.Div0.add_mod_idemp_l. f_equal. lia.
Qed.

Lemma first_accepted_next d task index k :
  first_accepted d task index (S (S k)) -> first_accepted d task (advance index 1) (S k).
Proof.
  intros (_ & Hacc & Href). split; [lia |]. split.
  - rewrite advance_step. exact Hacc.
  - intros a Ha. rewrite advance_step. apply Href. lia.
Qed.

Lemma refusals_next d task index k :
  refusals d task index (S (S k))
  = on_shared (slot d (advance index 1)) (tryEnqueue_ task false)
      :: refusals d task (advance index 1) (S k).
Proof.
  unfold refusals. replace (S (S k) - 1)%nat with (S k) by lia.
  replace (S k - 1)%nat with k by lia.
  cbn [seq fmap list_fmap]. f_equal.
  rewrite <- fmap_S_seq, <- list_fmap_compose.
  apply list_fmap_ext. intros _ a _. cbn. rewrite advance_step. reflexivity.
Qed.

Lemma postAsyncIo_loop_step fuel task index d :
  0 < vec_size (_sharedIoQueues d) ->
  postAsyncIo_loop (S fuel) task {| static_index := index; this := d |} =
    match _sharedIoQueues d !! N.to_nat (slot d (advance index 1)) with
    | Some q =>
        match q_tryEnqueue task q with
        | Some q' =>
            (Ok tt,
             {| static_index := advance index 1;
                this := set_sharedIoQueues
                          (<[N.to_nat (slot d (advance index 1)) := q']>) d |},
             [on_shared (slot d (advance index 1)) (tryEnqueue_ task true)])
        | None =>
            match postAsyncIo_loop fuel task
                    {| static_index := advance index 1; this := d |} with
            | (r, s', tr) =>
                (r, s', on_shared (slot d (advance index 1)) (tryEnqueue_ task false) :: tr)
            end
        end
    | None =>
        (Throw out_of_range, {| static_index := advance index 1; this := d |}, [])
    end.
Proof.
  intros Hn. cbn [postAsyncIo_loop].
  unfold bind at 1, pre_increment_index. cbn [static_index this].
  unfold bind at 1, get. cbn [this].
  destruct (N.eqb_spec (vec_size (_sharedIoQueues d)) 0) as [Hz | _]; [lia |].
  unfold bind at 1, on_this, shared_at_tryEnqueue. cbn [static_index this].
  change (wrap_size_t (index + 1)) with (advance index 1).
  fold (slot d (advance index 1)).
  destruct (_sharedIoQueues d !! _) as [q |]; [| reflexivity].
  destruct (q_tryEnqueue task q) as [q' |]; [reflexivity |].
  destruct (postAsyncIo_loop fuel task _) as [[r s'] tr]. reflexivity.
Qed.

(** The round-robin loop returns on the first attempt a queue accepts,
    provided it is given fuel for that many attempts. *)
Lemma postAsyncIo_loop_spec d task :
  0 < vec_size (_sharedIoQueues d) ->
  forall (k : nat) index (fuel : nat) q q',
    first_accepted d task index (S k) -> (S k <= fuel)%nat ->
    _sharedIoQueues d !! N.to_nat (slot d (advance index (S k))) = Some q ->
    q_tryEnqueue task q = Some q' ->
    postAsyncIo_loop fuel task {| static_index := index; this := d |} =
      (Ok tt,
       {| static_index := advance index (S k);
          this := set_sharedIoQueues
                    (<[N.to_nat (slot d (advance index (S k))) := q']>) d |},
       refusals d task index (S k)
         ++ [on_shared (slot d (advance index (S k))) (tryEnqueue_ task true)]).
Proof.
  intros Hn k. induction k as [| k IH]; intros index fuel q q' Hfirst Hfuel Hq Hq'.
  - destruct fuel as [| fuel]; [lia |].
    rewrite postAsyncIo_loop_step by assumption. rewrite Hq, Hq'. reflexivity.
  - destruct fuel as [| fuel]; [lia |].
    rewrite postAsyncIo_loop_step by assumption.
    destruct Hfirst as (H1 & Hacc & Href).
    pose proof (Href 1%nat ltac:(lia)) as Hrefuse. unfold accepts_at in Hrefuse.
    destruct (_sharedIoQueues d !! N.to_nat (slot d (advance index 1))) as [q1 |] eqn:Hq1.
    + destruct (q_tryEnqueue task q1); [discriminate |].
      rewrite <- advance_step in Hq.
      rewrite (IH (advance index 1) fuel q q');
        [ | apply first_accepted_next; repeat split; assumption | lia | exact Hq | exact Hq'].
      rewrite advance_step, refusals_next. reflexivity.
    + exfalso. apply lookup_ge_None in Hq1. unfold slot, vec_size in *.
      pose proof (N.mod_upper_bound (advance index 1) (N.of_nat (length (_sharedIoQueues d)))).
      lia.
Qed.

(** When no shared queue accepts, the loop never returns: the model runs
    out of any fuel it is given. *)
Lemma postAsyncIo_loop_spins d task :
  0 < vec_size (_sharedIoQueues d) ->
  (forall index, accepts_at d task index = false) ->
  forall (fuel : nat) index,
    (postAsyncIo_loop fuel task {| static_index := index; this := d |}).1.1 = OutOfFuel.
Proof.
  intros Hn Hnone fuel. induction fuel as [| fuel IH]; intros index; [reflexivity |].
  rewrite postAsyncIo_loop_step by assumption.
  pose proof (Hnone (advance index 1)) as Hrefuse. unfold accepts_at in Hrefuse.
  destruct (_sharedIoQueues d !! N.to_nat (slot d (advance index 1))) as [q |] eqn:Hq.
  - destruct (q_tryEnqueue task q); [discriminate |].
    specialize (IH (advance index 1)).
    destruct (postAsyncIo_loop fuel task _) as [[r s'] tr]. exact IH.
  - exfalso. apply lookup_ge_None in Hq. unfold slot, vec_size in *.
    pose proof (N.mod_upper_bound (advance index 1) (N.of_nat (length (_sharedIoQueues d)))).
    lia.
Qed.

Lemma least_attempt (P : nat -> bool) (m : nat) :
  (1 <= m)%nat -> P m = true ->
  exists k : nat, (1 <= k <= m)%nat /\ P k = true /\
                  forall a : nat, (1 <= a < k)%nat -> P a = false.
Proof.
  intros Hm HPm.
  assert (Hscan : forall n : nat,
             (forall a : nat, (1 <= a < n)%nat -> P a = false)
             \/ exists k : nat, (1 <= k < n)%nat /\ P k = true /\
                                forall a : nat, (1 <= a < k)%nat -> P a = false).
  { induction n as [| n [Hnone | Hsome]].
    - left. intros a Ha. lia.
    - destruct n as [| n]; [left; intros a Ha; lia |].
      destruct (P (S n)) eqn:HPn.
      + right. exists (S n). split; [lia |]. split; [exact HPn | exact Hnone].
      + left. intros a Ha. destruct (Nat.eq_dec a (S n)) as [-> | Hne]; [exact HPn |].
        apply Hnone. lia.
    - right. destruct Hsome as (k & Hk & HPk & Hbefore).
      exists k. split; [lia |]. split; assumption. }
  destruct (Hscan m) as [Hnone | (k & Hk & HPk & Hbefore)].
  - exists m. split; [lia |]. split; assumption.
  - exists k. split; [lia |]. split; assumption.
Qed.

(** Round robin reaches every shared queue within two rounds, also
    across the wrap-around of the index. *)
Lemma some_attempt_reaches index n j :
  0 < n -> n <= 2 ^ 64 -> j < n ->
  exists a : nat, (1 <= a <= 2 * N.to_nat n)%nat /\ advance index a mod n = j.
Proof.
  intros Hn Hn64 Hj. unfold advance, wrap_size_t.
  set (b := index mod 2 ^ 64).
  assert (Hb : b < 2 ^ 64) by (apply N.mod_upper_bound; lia).
  assert (Hadv : forall x, (index + x) mod 2 ^ 64 = (b + x) mod 2 ^ 64).
  { intros x. unfold b. rewrite N.Div0.add_mod_idemp_l. reflexivity. }
  destruct (N.lt_ge_cases (b + n) (2 ^ 64)) as [Hsmall | Hwrap].
  - (* the next [n] values of the index do not wrap *)
    set (c := (b + 1) mod n).
    assert (Hc : c < n) by (apply N.mod_upper_bound; lia).
    set (x := (j + n - c) mod n).
    assert (Hx : x < n) by (apply N.mod_upper_bound; lia).
    exists (N.to_nat (1 + x)). split; [lia |].
    rewrite Hadv, N2Nat.id. rewrite (N.mod_small (b + (1 + x)) (2 ^ 64)) by lia.
    replace (b + (1 + x)) with ((b + 1) + x) by lia.
    unfold x. rewrite N.Div0.add_mod_idemp_r.
    symmetry. apply (N.mod_unique _ _ ((b + 1) / n + 1)); [exact Hj |].
    pose proof (N.div_mod' (b + 1) n) as Hdiv. fold c in Hdiv. lia.
  - (* the index wraps to 0 within the next [n] values *)
    exists (N.to_nat (2 ^ 64 - b + j)). split; [lia |].
    rewrite Hadv, N2Nat.id.
    replace (b + (2 ^ 64 - b + j)) with (j + 1 * 2 ^ 64) by lia.
    rewrite N.Div0.mod_add, (N.mod_small j (2 ^ 64)) by lia.
    apply N.mod_small. exact Hj.
Qed.

(** If some shared queue accepts the task, an attempt within the first
    two rounds is the first accepted one. *)
Lemma first_accepted_exists d task index j q q' :
  vec_size (_sharedIoQueues d) <= 2 ^ 64 ->
  _sharedIoQueues d !! N.to_nat j = Some q -> q_tryEnqueue task q = Some q' ->
  exists k : nat, (k <= 2 * length (_sharedIoQueues d))%nat /\ first_accepted d task index k.
Proof.
  intros Hn64 Hq Hq'.
  assert (Hj : j < vec_size (_sharedIoQueues d)).
  { apply lookup_lt_Some in Hq. unfold vec_size. lia. }
  destruct (some_attempt_reaches index (vec_size (_sharedIoQueues d)) j)
    as (a & Ha & Hslot); [lia | exact Hn64 | exact Hj |].
  destruct (least_attempt (fun a => accepts_at d task (advance index a)) a)
    as (k & Hk & Hacc & Hbefore); [lia | |].
  - unfold accepts_at, slot. rewrite Hslot, Hq, Hq'. reflexivity.
  - exists k. split; [unfold vec_size in Ha; lia |]. split; [lia |]. split; assumption.
Qed.

(** *** Introspection *)

Lemma add_sizes_sum {T Q} `{IQueue T QueueStatistics Q} (v : list Q) size0 :
  wrap_size_t (add_sizes v size0) = wrap_size_t (size0 + sum_sizes v).
Proof.
  unfold add_sizes. revert size0.
  induction v as [| q v IH]; intros size0; cbn [fold_left foldr sum_sizes].
  - f_equal. lia.
  - rewrite IH. unfold wrap_size_t. rewrite N.Div0.add_mod_idemp_l.
    f_equal. fold (sum_sizes v). lia.
Qed.

Lemma wrap_size_t_add a a' b b' :
  wrap_size_t a = wrap_size_t a' -> wrap_size_t b = wrap_size_t b' ->
  wrap_size_t (a + b) = wrap_size_t (a' + b').
Proof.
  unfold wrap_size_t. intros Ha Hb.
  rewrite (N.Div0.add_mod a b), Ha, Hb, <- N.Div0.add_mod. reflexivity.
Qed.

Lemma size_All_spec d queueId :
  size All queueId d =
    if (queueId =? QueueId_All)%Z
    then (Ok (wrap_size_t (sum_sizes (_coroQueues d) + sum_sizes (_ioQueues d)
                           + sum_sizes (_sharedIoQueues d))), d, [])
    else (Throw (runtime_error "Cannot specify queue id"), d, []).
Proof.
  unfold size. destruct (queueId =? QueueId_All)%Z; [| reflexivity].
  cbn [negb]. unfold coroSize, ioSize, bind, get, ret. rewrite Z.eqb_refl. cbn [app].
  do 2 f_equal. f_equal. rewrite <- N.add_assoc.
  apply wrap_size_t_add.
  - rewrite add_sizes_sum. reflexivity.
  - rewrite add_sizes_sum. apply wrap_size_t_add; [| reflexivity].
    rewrite add_sizes_sum. reflexivity.
Qed.

Lemma empty_All_spec d queueId :
  empty All queueId d =
    if (queueId =? QueueId_All)%Z
    then (Ok (all_empty (_coroQueues d) && all_empty (_ioQueues d)
              && all_empty (_sharedIoQueues d)), d, [])
    else (Throw (runtime_error "Cannot specify queue id"), d, []).
Proof.
  unfold empty. destruct (queueId =? QueueId_All)%Z; [| reflexivity].
  cbn [negb]. unfold coroEmpty, ioEmpty, bind, get, ret. rewrite Z.eqb_refl.
  destruct (all_empty (_coroQueues d)); cbn [andb app]; [| reflexivity].
  destruct (all_empty (_sharedIoQueues d)), (all_empty (_ioQueues d)); reflexivity.
Qed.

Lemma stats_All_spec d queueId :
  stats All queueId d =
    if (queueId =? QueueId_All)%Z
    then (Ok (stats_add (add_stats (_coroQueues d) stats_default)
                (add_stats (_sharedIoQueues d) (add_stats (_ioQueues d) stats_default))),
          d, [])
    else (Throw (runtime_error "Cannot specify queue id"), d, []).
Proof.
  unfold stats. destruct (queueId =? QueueId_All)%Z; [| reflexivity].
  cbn [negb]. unfold coroStats, ioStats, bind, get, ret. rewrite Z.eqb_refl.
  reflexivity.
Qed.

(** *** Construction *)

Lemma vec_size_replicate {A} (n : N) (x : A) : vec_size (replicate (N.to_nat n) x) = n.
Proof. unfold vec_size. rewrite length_replicate. apply N2Nat.id. Qed.

Lemma pin_coroQueues_ok pin (v : list TaskQueue) :
  (pin = true -> 0 < hardware_concurrency) ->
  exists v', pin_coroQueues pin v = Ok v' /\ vec_size v' = vec_size v.
Proof.
  intros Hhw. unfold pin_coroQueues. destruct pin.
  - destruct (N.eqb_spec hardware_concurrency 0) as [Hz | _].
    + specialize (Hhw eq_refl). lia.
    + cbn [andb]. eexists. split; [reflexivity |].
      unfold vec_size. rewrite length_imap. reflexivity.
  - exists v. split; reflexivity.
Qed.

Lemma int_of_uint_of_int z : is_int z -> int_of_size_t (uint_of_int z) = z.
Proof.
  unfold is_int, INT_MIN, INT_MAX, int_of_size_t, uint_of_int. intros Hz.
  rewrite Z2N.id by (apply Z.mod_pos_bound; lia).
  rewrite Z.mod_mod by lia.
  destruct (Z.le_gt_cases 0 z) as [Hpos | Hneg].
  - rewrite Z.mod_small by lia. destruct (Z.ltb_spec z (2 ^ 31)); lia.
  - assert (Hmod : (z mod 2 ^ 32 = z + 2 ^ 32)%Z).
    { symmetry. apply (Z.mod_unique_pos _ _ (-1)); lia. }
    rewrite Hmod. destruct (Z.ltb_spec (z + 2 ^ 32) (2 ^ 31)); lia.
Qed.

Lemma pin_coroQueues_size pin (v v' : list TaskQueue) :
  pin_coroQueues pin v = Ok v' -> vec_size v' = vec_size v.
Proof.
  unfold pin_coroQueues. destruct pin; [| congruence].
  destruct (_ && _); [discriminate |]. intros [= <-].
  unfold vec_size. rewrite length_imap. reflexivity.
Qed.

Lemma io_thread_count_pos m : is_int m -> 0 < io_thread_count m.
Proof.
  unfold is_int, INT_MIN, INT_MAX, io_thread_count. intros Hm.
  destruct (Z.leb_spec m 0); [lia |].
  rewrite size_t_of_int_nonneg by (unfold INT_MAX; lia). lia.
Qed.

(** Both constructors establish the invariant the routing theorems
    assume whenever they build between one and [INT_MAX] coroutine
    queues, and always build at least one private and one shared I/O
    queue. *)
Lemma DispatcherCore_of_config_valid config d :
  DispatcherCore_of_config config = Ok d ->
  is_int (numIoThreads config) ->
  0 < coroutine_thread_count (numCoroutineThreads config) ->
  (Z.of_N (coroutine_thread_count (numCoroutineThreads config)) <= INT_MAX)%Z ->
  range_valid d /\ 0 < vec_size (_sharedIoQueues d) /\ 0 < vec_size (_ioQueues d).
Proof.
  unfold DispatcherCore_of_config. intros Hd Hm Hpos Hmax.
  destruct (pin_coroQueues _ _) as [v' | | |] eqn:Hpin; try discriminate.
  apply pin_coroQueues_size in Hpin. rewrite vec_size_replicate in Hpin.
  injection Hd as <-. unfold range_valid. cbn [_coroQueues _coroQueueIdRangeForAny
    _sharedIoQueues _ioQueues]. rewrite !vec_size_replicate, Hpin.
  pose proof (io_thread_count_pos _ Hm).
  destruct (coroQueueIdRangeForAny config) as [lo hi]. cbn [fst snd].
  destruct (N.ltb_spec lo hi), (N.ltb_spec lo (coroutine_thread_count (numCoroutineThreads config))),
    (N.leb_spec hi (coroutine_thread_count (numCoroutineThreads config)));
    cbn [andb fst snd]; repeat split; lia.
Qed.

Lemma DispatcherCore_new_valid n m pin d :
  DispatcherCore_new n m pin = Ok d ->
  is_int m ->
  0 < coroutine_thread_count n ->
  (Z.of_N (coroutine_thread_count n) <= INT_MAX)%Z ->
  range_valid d /\ 0 < vec_size (_sharedIoQueues d) /\ 0 < vec_size (_ioQueues d).
Proof.
  unfold DispatcherCore_new. intros Hd Hm Hpos Hmax.
  destruct (pin_coroQueues _ _) as [v' | | |] eqn:Hpin; try discriminate.
  apply pin_coroQueues_size in Hpin. rewrite vec_size_replicate in Hpin.
  injection Hd as <-. unfold range_valid. cbn [_coroQueues _coroQueueIdRangeForAny
    _sharedIoQueues _ioQueues fst snd]. rewrite !vec_size_replicate, Hpin.
  pose proof (io_thread_count_pos _ Hm). repeat split; lia.
Qed.

Lemma post_scan_reads_only (k : nat) i numTasks index d :
  (post_scan k i numTasks index d).1.2 = d.
Proof.
  revert i numTasks index. induction k as [| k IH]; intros i numTasks index; [reflexivity |].
  cbn [post_scan]. unfold bind at 1, coro_index_size.
  destruct (_coroQueues d !! N.to_nat i) as [q |]; [| reflexivity].
  cbn zeta. destruct (_ =? 0); [reflexivity |].
  specialize (IH (N.succ i) (if q_size q <? numTasks then q_size q else numTasks)
                 (if q_size q <? numTasks then i else index)).
  destruct (post_scan k _ _ _ d) as [[r d'] tr]. exact IH.
Qed.

(** [post] keeps the invariant: it changes no vector's length and not
    the range. *)
Lemma post_preserves_range_valid task d :
  range_valid d -> range_valid (post task d).1.2.
Proof.
  intros Hvalid. destruct task as [t |]; [| exact Hvalid].
  unfold post, bind at 1.
  set (choice := if (getQueueId t =? QueueId_Any)%Z then _ else _).
  assert (Hchoice : (choice d).1.2 = d).
  { unfold choice. destruct (getQueueId t =? QueueId_Any)%Z.
    - unfold bind, get, ret.
      pose proof (post_scan_reads_only
                    (N.to_nat ((_coroQueueIdRangeForAny d).2 - (_coroQueueIdRangeForAny d).1))
                    (_coroQueueIdRangeForAny d).1 SIZE_MAX 0 d) as Hscan.
      destruct (post_scan _ _ _ _ d) as [[[index | e | |] d'] tr]; cbn in *; congruence.
    - unfold bind, get, throw, ret. destruct (_ >=? _)%Z; reflexivity. }
  destruct (choice d) as [[[t' | e | |] d'] tr]; cbn in Hchoice; subst d'; try exact Hvalid.
  unfold coro_at_enqueue.
  destruct (_coroQueues d !! N.to_nat (size_t_of_int (getQueueId t'))) as [q |];
    [| exact Hvalid].
  cbn. unfold range_valid, vec_size in *. cbn. rewrite length_insert. exact Hvalid.
Qed.

(** *** The claims about one dispatcher *)

(** C3: [terminate] is idempotent.  A call that finds the flag clear
    sets it and terminates every coroutine queue, then every private
    I/O queue, then every shared I/O queue, in that order; a call that
    finds it set changes nothing and calls nothing, so a second call
    after any call is a no-op and two calls in a row do what one does;
    the destructor is a call of [terminate]. *)
Theorem terminate_idempotent d :
  terminate d =
    (if _terminated d then (Ok tt, d, [])
     else (Ok tt, all_terminated d,
           calls_in_order on_coro terminate_ (length (_coroQueues d))
           ++ calls_in_order on_io terminate_ (length (_ioQueues d))
           ++ calls_in_order on_shared terminate_ (length (_sharedIoQueues d))))
  /\ (exists d1 tr1, terminate d = (Ok tt, d1, tr1) /\ terminate d1 = (Ok tt, d1, []))
  /\ (terminate ;;; terminate)%dispatch d = terminate d
  /\ DispatcherCore_destructor = terminate.
Proof.
  split; [apply terminate_spec |].
  assert (Hsecond : exists d1 tr1,
             terminate d = (Ok tt, d1, tr1) /\ terminate d1 = (Ok tt, d1, [])).
  { rewrite terminate_spec. destruct (_terminated d) eqn:Hflag.
    - exists d, []. split; [reflexivity |]. rewrite terminate_spec, Hflag. reflexivity.
    - eexists _, _. split; [reflexivity |]. rewrite terminate_spec. reflexivity. }
  split; [exact Hsecond |]. split; [| reflexivity].
  destruct Hsecond as (d1 & tr1 & Hfirst & Hagain).
  unfold bind. rewrite Hfirst, Hagain, app_nil_r. reflexivity.
Qed.

(** C4: with load balancing off, [postAsyncIo] of a task whose queue id
    is [Any] enqueues it on shared I/O queue 0 and then signals the empty
    condition of every private I/O queue, in order; the private queues
    are only signalled, none is handed the task, and nothing else
    changes. *)
Theorem postAsyncIo_any_goes_to_shared_queue_0 fuel (s : Frame') (task : IoTask) :
  io_getQueueId task = QueueId_Any ->
  _loadBalanceSharedIoQueues (this s) = false ->
  0 < vec_size (_sharedIoQueues (this s)) ->
  exists q0 s' tr,
    _sharedIoQueues (this s) !! 0%nat = Some q0 /\
    postAsyncIo fuel (Some task) s = (Ok tt, s', tr) /\
    tr = on_shared 0 (enqueue_ task)
           :: calls_in_order on_io (signalEmptyCondition_ false)
                             (length (_ioQueues (this s))) /\
    _sharedIoQueues (this s') = <[0%nat := q_enqueue task q0]> (_sharedIoQueues (this s)) /\
    _ioQueues (this s') = q_signalEmptyCondition false <$> _ioQueues (this s) /\
    _coroQueues (this s') = _coroQueues (this s) /\
    static_index s' = static_index s /\
    forallb (fun e => negb (gives_to_private e)) tr = true.
Proof.
  intros Hany Hlb Hn.
  destruct (lookup_vec_size _ 0 Hn) as [q0 Hq0]. change (N.to_nat 0) with 0%nat in Hq0.
  eexists q0, _, _. split; [exact Hq0 |].
  split; [apply (postAsyncIo_any_spec fuel s task q0 Hany Hlb Hq0) |].
  repeat (split; [reflexivity |]).
  cbn [forallb gives_to_private negb andb]. apply calls_in_order_signal_no_gift.
Qed.

Lemma refusals_give_nothing d task index k :
  filter (fun e => gives_task e = true) (refusals d task index k) = [].
Proof.
  unfold refusals. generalize (seq 1 (k - 1)). intros l.
  induction l as [| a l IH]; [reflexivity |].
  cbn [fmap list_fmap]. rewrite filter_cons_False; [exact IH |]. cbn. discriminate.
Qed.

Lemma selected_shared_after_refusals d task index k j :
  selected_shared (refusals d task index k ++ [on_shared j (tryEnqueue_ task true)])
  = Some j.
Proof.
  unfold refusals. generalize (seq 1 (k - 1)). intros l.
  induction l as [| a l IH]; [reflexivity |]. exact IH.
Qed.

(** C5: with load balancing on, [postAsyncIo] of a task whose queue id is
    [Any] advances the round-robin index once per attempt and offers the
    task to the shared queue the index designates modulo the number of
    shared queues; queues that refuse it are skipped and left as they
    were, and the call returns at the first queue that accepts, which is
    the only queue that gets the task.  When some shared queue accepts,
    that happens within two rounds. *)
Theorem postAsyncIo_any_round_robin (s : Frame') (task : IoTask) j q q' :
  io_getQueueId task = QueueId_Any ->
  _loadBalanceSharedIoQueues (this s) = true ->
  vec_size (_sharedIoQueues (this s)) <= 2 ^ 64 ->
  _sharedIoQueues (this s) !! N.to_nat j = Some q ->
  q_tryEnqueue task q = Some q' ->
  exists (k : nat) qk qk',
    let chosen := slot (this s) (advance (static_index s) k) in
    (1 <= k <= 2 * length (_sharedIoQueues (this s)))%nat /\
    first_accepted (this s) task (static_index s) k /\
    _sharedIoQueues (this s) !! N.to_nat chosen = Some qk /\
    q_tryEnqueue task qk = Some qk' /\
    forall fuel : nat, (k <= fuel)%nat ->
      exists tr,
        postAsyncIo fuel (Some task) s =
          (Ok tt,
           {| static_index := advance (static_index s) k;
              this := set_sharedIoQueues (<[N.to_nat chosen := qk']>) (this s) |},
           tr) /\
        tr = refusals (this s) task (static_index s) k
               ++ [on_shared chosen (tryEnqueue_ task true)] /\
        filter (fun e => gives_task e = true) tr
          = [on_shared chosen (tryEnqueue_ task true)].
Proof.
  intros Hany Hlb Hn64 Hq Hq'.
  destruct (first_accepted_exists (this s) task (static_index s) j q q' Hn64 Hq Hq')
    as (k & Hk & Hfirst).
  assert (Hn : 0 < vec_size (_sharedIoQueues (this s))).
  { apply lookup_lt_Some in Hq. unfold vec_size. lia. }
  pose proof Hfirst as (Hk1 & Hacc & _).
  unfold accepts_at in Hacc.
  destruct (_sharedIoQueues (this s)
              !! N.to_nat (slot (this s) (advance (static_index s) k)))
    as [qk |] eqn:Hqk; [| discriminate].
  destruct (q_tryEnqueue task qk) as [qk' |] eqn:Hqk'; [| discriminate].
  exists k, qk, qk'. cbn zeta.
  split; [lia |]. split; [exact Hfirst |]. split; [exact Hqk |]. split; [exact Hqk' |].
  intros fuel Hfuel. eexists. split; [| split; [reflexivity |]].
  - unfold postAsyncIo, bind at 1, get. rewrite Hany, Z.eqb_refl, Hlb.
    destruct k as [| k]; [lia |]. destruct s as [index d]. cbn [static_index this] in *.
    rewrite (postAsyncIo_loop_spec d task Hn k index fuel qk qk' Hfirst Hfuel Hqk Hqk').
    reflexivity.
  - rewrite filter_app, refusals_give_nothing. reflexivity.
Qed.

(** C2, as the code has it: the round-robin index is the function-local
    static of [postAsyncIo], one per process, so every dispatcher
    advances the same index.  A load-balanced [Any] submission on [A]
    that needs [kA] attempts moves the index by [kA], and the next one on
    [B], needing [kB] attempts from there, selects the shared queue of
    [B] that the index advanced by [kA + kB] designates. *)
Theorem round_robin_index_is_process_wide (A B : Core) index (taskA taskB : IoTask)
    (kA kB fuelA fuelB : nat) :
  io_getQueueId taskA = QueueId_Any -> io_getQueueId taskB = QueueId_Any ->
  _loadBalanceSharedIoQueues A = true -> _loadBalanceSharedIoQueues B = true ->
  0 < vec_size (_sharedIoQueues A) -> 0 < vec_size (_sharedIoQueues B) ->
  first_accepted A taskA index kA ->
  first_accepted B taskB (advance index kA) kB ->
  (kA <= fuelA)%nat -> (kB <= fuelB)%nat ->
  exists A' B' trA trB,
    postAsyncIo fuelA (Some taskA) {| static_index := index; this := A |}
      = (Ok tt, {| static_index := advance index kA; this := A' |}, trA) /\
    postAsyncIo fuelB (Some taskB) {| static_index := advance index kA; this := B |}
      = (Ok tt, {| static_index := advance index (kA + kB); this := B' |}, trB) /\
    selected_shared trB = Some (slot B (advance index (kA + kB))).
Proof.
  intros HanyA HanyB HlbA HlbB HnA HnB HfirstA HfirstB HfuelA HfuelB.
  assert (Hrun : forall (D : Core) task idx (k fuel : nat),
             io_getQueueId task = QueueId_Any -> _loadBalanceSharedIoQueues D = true ->
             0 < vec_size (_sharedIoQueues D) -> first_accepted D task idx k ->
             (k <= fuel)%nat ->
             exists D' tr,
               postAsyncIo fuel (Some task) {| static_index := idx; this := D |}
                 = (Ok tt, {| static_index := advance idx k; this := D' |}, tr) /\
               selected_shared tr = Some (slot D (advance idx k))).
  { intros D task idx k fuel Hany Hlb Hn Hfirst Hfuel.
    pose proof Hfirst as (Hk1 & Hacc & _). unfold accepts_at in Hacc.
    destruct (_sharedIoQueues D !! N.to_nat (slot D (advance idx k)))
      as [qk |] eqn:Hqk; [| discriminate].
    destruct (q_tryEnqueue task qk) as [qk' |] eqn:Hqk'; [| discriminate].
    destruct k as [| k]; [lia |].
    eexists _, _. split.
    - unfold postAsyncIo, bind at 1, get. cbn [this]. rewrite Hany, Z.eqb_refl, Hlb.
      rewrite (postAsyncIo_loop_spec D task Hn k idx fuel qk qk' Hfirst Hfuel Hqk Hqk').
      reflexivity.
    - apply selected_shared_after_refusals. }
  destruct (Hrun A taskA index kA fuelA HanyA HlbA HnA HfirstA HfuelA)
    as (A' & trA & HrunA & _).
  destruct (Hrun B taskB (advance index kA) kB fuelB HanyB HlbB HnB HfirstB HfuelB)
    as (B' & trB & HrunB & HselB).
  assert (Hadv : advance (advance index kA) kB = advance index (kA + kB)).
  { unfold advance, wrap_size_t. rewrite N.Div0.add_mod_idemp_l. f_equal. lia. }
  rewrite Hadv in HrunB, HselB.
  exists A', B', trA, trB. split; [exact HrunA |]. split; [exact HrunB | exact HselB].
Qed.

(** The loop [for (auto&& queue : v) stats += queue.stats();] is the left
    fold of [operator+=] over the statistics of the queues, in order. *)
Lemma add_stats_fold {T Q} `{IQueue T QueueStatistics Q} (v : list Q)
    (stats0 : QueueStatistics) :
  add_stats v stats0 = fold_left stats_add_assign (q_stats <$> v) stats0.
Proof.
  unfold add_stats. revert stats0.
  induction v as [| q v IH]; intros stats0; [reflexivity |].
  cbn [fmap list_fmap fold_left]. apply IH.
Qed.

(** C6: for [size], [empty] and [stats] alike, the type [All] with a
    queue id other than the sentinel [All] throws "Cannot specify queue
    id", and the type [All] with the queue id [All] returns the
    aggregate over the coroutine queues, the private I/O queues and the
    shared I/O queues: the sum of their sizes (in [size_t] arithmetic);
    whether every one of them reports empty; and the sum, by
    [operator+], of the statistics of the coroutine queues and of those
    of the I/O queues, each accumulated by [operator+=] from the
    default-constructed statistics, private queues before shared ones.
    None of the three changes the dispatcher. *)
Theorem introspection_of_all_queues d queueId :
  size All queueId d =
    (if (queueId =? QueueId_All)%Z
     then (Ok (wrap_size_t (sum_sizes (_coroQueues d) + sum_sizes (_ioQueues d)
                            + sum_sizes (_sharedIoQueues d))), d, [])
     else (Throw (runtime_error "Cannot specify queue id"), d, []))
  /\ empty All queueId d =
    (if (queueId =? QueueId_All)%Z
     then (Ok (forallb q_empty (_coroQueues d) && forallb q_empty (_ioQueues d)
               && forallb q_empty (_sharedIoQueues d)), d, [])
     else (Throw (runtime_error "Cannot specify queue id"), d, []))
  /\ stats All queueId d =
    (if (queueId =? QueueId_All)%Z
     then (Ok (stats_add
                 (fold_left stats_add_assign (q_stats <$> _coroQueues d) stats_default)
                 (fold_left stats_add_assign (q_stats <$> _sharedIoQueues d)
                    (fold_left stats_add_assign (q_stats <$> _ioQueues d) stats_default))),
           d, [])
     else (Throw (runtime_error "Cannot specify queue id"), d, [])).
Proof.
  split; [apply size_All_spec |]. split.
  - rewrite empty_All_spec. reflexivity.
  - rewrite stats_All_spec, !add_stats_fold. reflexivity.
Qed.

(** C8: constructed from a configuration, the dispatcher takes the
    configured range for [Any] when it is non-empty and within the [N]
    coroutine queues, and falls back to [[0, N)] when it is empty or out
    of bounds; construction returns either way.  (Pinning to cores
    divides by the hardware concurrency, which must then be non-zero.) *)
Theorem configured_range_for_any config :
  (pinCoroutineThreadsToCores config = true -> 0 < hardware_concurrency) ->
  exists d,
    DispatcherCore_of_config config = Ok d /\
    let n := vec_size (_coroQueues d) in
    let lo := (coroQueueIdRangeForAny config).1 in
    let hi := (coroQueueIdRangeForAny config).2 in
    n = coroutine_thread_count (numCoroutineThreads config) /\
    (hi <= lo \/ n <= lo \/ n < hi -> getCoroQueueIdRangeForAny d = (0, n)) /\
    (lo < hi /\ lo < n /\ hi <= n -> getCoroQueueIdRangeForAny d = (lo, hi)).
Proof.
  intros Hhw. unfold DispatcherCore_of_config.
  destruct (pin_coroQueues_ok (pinCoroutineThreadsToCores config)
              (replicate (N.to_nat (coroutine_thread_count (numCoroutineThreads config)))
                         (TaskQueue_new config)) Hhw) as (v' & -> & Hsize).
  eexists. split; [reflexivity |]. cbn zeta. unfold getCoroQueueIdRangeForAny.
  cbn [_coroQueues _coroQueueIdRangeForAny].
  rewrite vec_size_replicate in Hsize.
  split; [exact Hsize |].
  destruct (coroQueueIdRangeForAny config) as [lo hi]. cbn [fst snd].
  destruct (N.ltb_spec lo hi), (N.ltb_spec lo (vec_size v')), (N.leb_spec hi (vec_size v'));
    cbn [andb]; split; intros; try reflexivity; lia.
Qed.

(** C9: after [DispatcherCore(numCoroutineThreads, numIoThreads, pin)],
    [getNumCoroutineThreads] returns the hardware concurrency when
    [numCoroutineThreads] is -1, 1 when it is 0 and [numCoroutineThreads]
    otherwise; [getNumIoThreads] returns 1 when [numIoThreads <= 0] and
    [numIoThreads] otherwise. *)
Theorem thread_counts_after_construction (n m : Z) (pin : bool) :
  is_int n -> is_int m ->
  (n = (-1)%Z -> (Z.of_N hardware_concurrency <= INT_MAX)%Z) ->
  (pin = true -> 0 < hardware_concurrency) ->
  exists d,
    DispatcherCore_new n m pin = Ok d /\
    getNumCoroutineThreads d =
      (if (n =? -1)%Z then Z.of_N hardware_concurrency
       else if (n =? 0)%Z then 1%Z else n) /\
    getNumIoThreads d = (if (m <=? 0)%Z then 1%Z else m).
Proof.
  intros Hn Hm Hhwmax Hhw. unfold DispatcherCore_new.
  destruct (pin_coroQueues_ok pin
              (replicate (N.to_nat (coroutine_thread_count n)) TaskQueue_default) Hhw)
    as (v' & -> & Hsize).
  eexists. split; [reflexivity |].
  unfold getNumCoroutineThreads, getNumIoThreads. cbn [_coroQueues _ioQueues].
  rewrite Hsize, !vec_size_replicate. split.
  - unfold coroutine_thread_count.
    destruct (Z.eqb_spec n (-1)) as [Hminus | _];
      [apply int_of_size_t_small, Hhwmax, Hminus |].
    destruct (n =? 0)%Z; [reflexivity |].
    apply int_of_uint_of_int. exact Hn.
  - unfold io_thread_count. destruct (Z.leb_spec m 0) as [Hle | Hgt]; [reflexivity |].
    destruct Hm as [_ Hmax].
    rewrite size_t_of_int_nonneg by lia.
    rewrite int_of_size_t_small; rewrite Z2N.id; lia.
Qed.

(** C10: [post] and [postAsyncIo] of a null task pointer return at once:
    no error, no queue method called, the dispatcher (and the static
    index) as before. *)
Theorem null_task_is_ignored d (s : Frame') (fuel : nat) :
  post None d = (Ok tt, d, []) /\ postAsyncIo fuel None s = (Ok tt, s, []).
Proof. split; reflexivity. Qed.

(** *** Further properties of post *)

(** X1: [post] of a task that names one of the coroutine queues enqueues
    it on that queue: no size is read, the task keeps its queue id, and
    the other queues, like the rest of the dispatcher, stay as they were;
    the terminated flag is not consulted. *)
Theorem post_to_named_queue d t q :
  getQueueId t <> QueueId_Any ->
  (0 <= getQueueId t)%Z ->
  (Z.of_N (vec_size (_coroQueues d)) <= INT_MAX)%Z ->
  _coroQueues d !! Z.to_nat (getQueueId t) = Some q ->
  post (Some t) d =
    (Ok tt,
     set_coroQueues (<[Z.to_nat (getQueueId t) := q_enqueue t q]>) d,
     [on_coro (Z.to_N (getQueueId t)) (enqueue_ t)]).
Proof.
  intros Hany Hpos Hn Hq.
  assert (Hlt : (getQueueId t < Z.of_N (vec_size (_coroQueues d)))%Z).
  { apply lookup_lt_Some in Hq. unfold vec_size. lia. }
  unfold post. apply Z.eqb_neq in Hany. rewrite Hany.
  unfold bind, get, throw, ret. rewrite int_of_size_t_small by assumption.
  destruct (Z.geb_spec (getQueueId t) (Z.of_N (vec_size (_coroQueues d)))); [lia |].
  unfold coro_at_enqueue. rewrite size_t_of_int_nonneg by lia.
  rewrite Z_N_nat, Hq. reflexivity.
Qed.

(** X2: when a queue of the range for [Any] is empty, [post] gives the
    task to the first empty queue of the range and reads no queue after
    it. *)
Theorem post_any_takes_first_empty_queue d t j q :
  getQueueId t = QueueId_Any -> range_valid d -> depths_below_max d ->
  (_coroQueueIdRangeForAny d).1 <= j < (_coroQueueIdRangeForAny d).2 ->
  _coroQueues d !! N.to_nat j = Some q -> q_size q = 0 ->
  (forall i qi, (_coroQueueIdRangeForAny d).1 <= i < j ->
                _coroQueues d !! N.to_nat i = Some qi -> q_size qi <> 0) ->
  post (Some t) d =
    (Ok tt,
     set_coroQueues (<[N.to_nat j := q_enqueue (setQueueId (Z.of_N j) t) q]>) d,
     size_reads (_coroQueueIdRangeForAny d).1 j
       ++ [on_coro j (enqueue_ (setQueueId (Z.of_N j) t))]).
Proof.
  intros Hany Hvalid Hmax Hj Hq Hempty Hbefore.
  destruct (post_any_spec d t Hany Hvalid Hmax)
    as (index & stop & q' & Hshort & Hstop & Hq' & Hpost).
  assert (Hdj : depth d j = Some 0) by (unfold depth; rewrite Hq, <- Hempty; reflexivity).
  assert (Hnz : forall i si, (_coroQueueIdRangeForAny d).1 <= i < j ->
                             depth d i = Some si -> si <> 0).
  { intros i si Hi Hdi. unfold depth in Hdi.
    destruct (_coroQueues d !! N.to_nat i) as [qi |] eqn:Hqi; [| discriminate].
    injection Hdi as <-. exact (Hbefore i qi Hi Hqi). }
  destruct Hstop as (Hsr & Hstop_before & Hstop_end).
  assert (stop = j) as ->.
  { destruct (N.lt_trichotomy stop j) as [Hlt | [Heq | Hgt]]; [| exact Heq |].
    - destruct Hstop_end as [Hend | Hzero]; [lia |].
      exfalso. exact (Hnz stop 0 ltac:(lia) Hzero eq_refl).
    - exfalso. exact (Hstop_before j 0 ltac:(lia) Hdj eq_refl). }
  destruct Hshort as (Hir & s0 & Hds & Hmin & Hlow).
  assert (index = j) as ->.
  { pose proof (Hmin j 0 Hj Hdj) as Hs0. assert (s0 = 0) by lia. subst s0.
    destruct (N.lt_trichotomy index j) as [Hlt | [Heq | Hgt]]; [| exact Heq |].
    - exfalso. exact (Hnz index 0 ltac:(lia) Hds eq_refl).
    - pose proof (Hlow j 0 ltac:(lia) Hdj). lia. }
  rewrite Hq in Hq'. injection Hq' as <-. exact Hpost.
Qed.

Lemma sum_sizes_insert {T Q} `{IQueue T QueueStatistics Q} (v : list Q) (n : nat) q q' :
  v !! n = Some q ->
  sum_sizes (<[n := q']> v) + q_size q = sum_sizes v + q_size q'.
Proof.
  unfold sum_sizes. revert n. induction v as [| x v IH]; intros n Hq; [discriminate |].
  destruct n as [| n].
  - injection Hq as ->. change (<[0%nat := q']> (q :: v)) with (q' :: v).
    cbn [foldr]. lia.
  - specialize (IH n Hq). change (<[S n := q']> (x :: v)) with (x :: <[n := q']> v).
    cbn [foldr]. rewrite <- !N.add_assoc, IH. reflexivity.
Qed.

Lemma post_returns_after_enqueue d t d' tr :
  post (Some t) d = (Ok tt, d', tr) ->
  exists (n : nat) q t',
    _coroQueues d !! n = Some q /\
    d' = set_coroQueues (<[n := q_enqueue t' q]>) d.
Proof.
  unfold post, bind at 1.
  set (choice := if (getQueueId t =? QueueId_Any)%Z then _ else _).
  assert (Hchoice : (choice d).1.2 = d).
  { unfold choice. destruct (getQueueId t =? QueueId_Any)%Z.
    - unfold bind, get, ret.
      pose proof (post_scan_reads_only
                    (N.to_nat ((_coroQueueIdRangeForAny d).2 - (_coroQueueIdRangeForAny d).1))
                    (_coroQueueIdRangeForAny d).1 SIZE_MAX 0 d) as Hscan.
      destruct (post_scan _ _ _ _ d) as [[[index | e | |] d1] tr1]; cbn in *; congruence.
    - unfold bind, get, throw, ret. destruct (_ >=? _)%Z; reflexivity. }
  destruct (choice d) as [[[t' | e | |] d1] tr1]; cbn in Hchoice; subst d1;
    try discriminate.
  unfold coro_at_enqueue.
  destruct (_coroQueues d !! N.to_nat (size_t_of_int (getQueueId t'))) as [q |] eqn:Hq;
    [| discriminate].
  intros [= <- _]. exists (N.to_nat (size_t_of_int (getQueueId t'))), q, t'.
  split; [exact Hq | reflexivity].
Qed.

(** X3: over queues whose [enqueue] adds one to their size, every [post]
    of a task (a non-null pointer) that returns has added exactly one
    task to the coroutine queues: the sum of their sizes grows by one,
    whichever way the queue was chosen, and no I/O queue is touched. *)
Theorem post_adds_one_task d t d' tr :
  (forall (t0 : Task) (q : TaskQueue), q_size (q_enqueue t0 q) = q_size q + 1) ->
  post (Some t) d = (Ok tt, d', tr) ->
  sum_sizes (_coroQueues d') = sum_sizes (_coroQueues d) + 1
  /\ _ioQueues d' = _ioQueues d
  /\ _sharedIoQueues d' = _sharedIoQueues d.
Proof.
  intros Hlaw Hpost.
  destruct (post_returns_after_enqueue d t d' tr Hpost) as (n & q & t' & Hq & ->).
  cbn [set_coroQueues _coroQueues _ioQueues _sharedIoQueues].
  split; [| split; reflexivity].
  pose proof (sum_sizes_insert (_coroQueues d) n q (q_enqueue t' q) Hq) as Hsum.
  rewrite Hlaw in Hsum. lia.
Qed.

(** *** Further properties of postAsyncIo *)

(** X5: [postAsyncIo] of a task that names one of the private I/O queues
    enqueues it on that queue: no private queue is signalled, the shared
    queues, the static index and the rest of the dispatcher stay as they
    were, whether load balancing is on or off. *)
Theorem postAsyncIo_to_named_queue fuel (s : Frame') (task : IoTask) q :
  io_getQueueId task <> QueueId_Any ->
  (0 <= io_getQueueId task)%Z ->
  (Z.of_N (vec_size (_ioQueues (this s))) <= INT_MAX)%Z ->
  _ioQueues (this s) !! Z.to_nat (io_getQueueId task) = Some q ->
  postAsyncIo fuel (Some task) s =
    (Ok tt,
     {| static_index := static_index s;
        this := set_ioQueues (<[Z.to_nat (io_getQueueId task) := q_enqueue task q]>)
                             (this s) |},
     [on_io (Z.to_N (io_getQueueId task)) (enqueue_ task)]).
Proof.
  intros Hany Hpos Hn Hq.
  assert (Hlt : (io_getQueueId task < Z.of_N (vec_size (_ioQueues (this s))))%Z).
  { apply lookup_lt_Some in Hq. unfold vec_size. lia. }
  unfold postAsyncIo, bind, get. apply Z.eqb_neq in Hany. rewrite Hany.
  rewrite int_of_size_t_small by assumption.
  destruct (Z.geb_spec (io_getQueueId task) (Z.of_N (vec_size (_ioQueues (this s)))));
    [lia |].
  unfold on_this, io_at_enqueue. rewrite size_t_of_int_nonneg by lia.
  rewrite Z_N_nat, Hq. reflexivity.
Qed.

(** X6: [postAsyncIo] of a task whose queue id is neither [Any] nor the
    index of a private I/O queue throws before any queue is touched: an id
    at or above the number of private queues meets the dispatcher's own
    check, a negative one the bounds check of [vector::at]. *)
Theorem postAsyncIo_out_of_bounds fuel (s : Frame') (task : IoTask) :
  io_getQueueId task <> QueueId_Any -> is_int (io_getQueueId task) ->
  (Z.of_N (vec_size (_ioQueues (this s))) <= INT_MAX)%Z ->
  (io_getQueueId task < 0
   \/ Z.of_N (vec_size (_ioQueues (this s))) <= io_getQueueId task)%Z ->
  postAsyncIo fuel (Some task) s =
    (Throw (if (io_getQueueId task <? 0)%Z then out_of_range
            else runtime_error "Queue id out of bounds"), s, []).
Proof.
  intros Hany [Hmin Hmax] Hn Hout.
  unfold postAsyncIo, bind, get, throw. apply Z.eqb_neq in Hany. rewrite Hany.
  rewrite int_of_size_t_small by assumption.
  destruct (Z.ltb_spec (io_getQueueId task) 0) as [Hneg | Hpos].
  - destruct (Z.geb_spec (io_getQueueId task) (Z.of_N (vec_size (_ioQueues (this s)))));
      [lia |].
    unfold on_this, io_at_enqueue.
    rewrite size_t_of_int_neg by (unfold INT_MIN in *; lia).
    rewrite lookup_vec_ge; [destruct s; reflexivity |].
    unfold INT_MIN, INT_MAX in *. lia.
  - destruct (Z.geb_spec (io_getQueueId task) (Z.of_N (vec_size (_ioQueues (this s)))));
      [| lia].
    cbn [app]. reflexivity.
Qed.

Lemma advance_0 index : index < 2 ^ 64 -> advance index 0 = index.
Proof.
  intros Hi. unfold advance, wrap_size_t. rewrite N.add_0_r. apply N.mod_small. exact Hi.
Qed.

Lemma advance_lt index (a : nat) : advance index a < 2 ^ 64.
Proof. unfold advance, wrap_size_t. apply N.mod_upper_bound. lia. Qed.

Lemma postAsyncIo_loop_refused d task :
  0 < vec_size (_sharedIoQueues d) ->
  (forall q, q ∈ _sharedIoQueues d -> q_tryEnqueue task q = None) ->
  forall (fuel : nat) index,
    index < 2 ^ 64 ->
    postAsyncIo_loop fuel task {| static_index := index; this := d |}
    = (OutOfFuel, {| static_index := advance index fuel; this := d |},
       refusals d task index (S fuel)).
Proof.
  intros Hn Hnone fuel. induction fuel as [| fuel IH]; intros index Hindex.
  - rewrite advance_0 by assumption. reflexivity.
  - rewrite postAsyncIo_loop_step by assumption.
    destruct (_sharedIoQueues d !! N.to_nat (slot d (advance index 1))) as [q |] eqn:Hq.
    + rewrite (Hnone q) by (eapply list_elem_of_lookup_2; exact Hq).
      rewrite (IH (advance index 1)) by apply advance_lt.
      rewrite advance_step, refusals_next. reflexivity.
    + exfalso. apply lookup_ge_None in Hq. unfold slot, vec_size in *.
      pose proof (N.mod_upper_bound (advance index 1) (N.of_nat (length (_sharedIoQueues d)))).
      lia.
Qed.

(** X7: with load balancing on and every shared queue refusing the task,
    [postAsyncIo] of an [Any] task never returns: however many attempts it
    is given, it is still in its loop, having advanced the static index
    once per attempt, been refused each time and changed no queue. *)
Theorem postAsyncIo_spins_while_all_refuse (fuel : nat) (s : Frame') (task : IoTask) :
  io_getQueueId task = QueueId_Any ->
  _loadBalanceSharedIoQueues (this s) = true ->
  0 < vec_size (_sharedIoQueues (this s)) ->
  static_index s < 2 ^ 64 ->
  (forall q, q ∈ _sharedIoQueues (this s) -> q_tryEnqueue task q = None) ->
  postAsyncIo fuel (Some task) s =
    (OutOfFuel,
     {| static_index := advance (static_index s) fuel; this := this s |},
     refusals (this s) task (static_index s) (S fuel)).
Proof.
  intros Hany Hlb Hn Hindex Hnone.
  unfold postAsyncIo, bind at 1, get. rewrite Hany, Z.eqb_refl, Hlb.
  destruct s as [index d]. cbn [static_index this] in *.
  rewrite (postAsyncIo_loop_refused d task Hn Hnone fuel index Hindex). reflexivity.
Qed.

(** *** What no operation changes *)

Lemma shape_set_coroQueues d (f : list TaskQueue -> list TaskQueue) :
  (forall v, length (f v) = length v) -> shape (set_coroQueues f d) = shape d.
Proof. intros Hf. unfold shape. cbn. rewrite Hf. reflexivity. Qed.

Lemma shape_set_sharedIoQueues d (f : list IoQueue -> list IoQueue) :
  (forall v, length (f v) = length v) -> shape (set_sharedIoQueues f d) = shape d.
Proof. intros Hf. unfold shape. cbn. rewrite Hf. reflexivity. Qed.

Lemma shape_set_ioQueues d (f : list IoQueue -> list IoQueue) :
  (forall v, length (f v) = length v) -> shape (set_ioQueues f d) = shape d.
Proof. intros Hf. unfold shape. cbn. rewrite Hf. reflexivity. Qed.

Lemma shape_set_terminated d b : shape (set_terminated b d) = shape d.
Proof. reflexivity. Qed.

Lemma post_keeps_shape task d : shape (post task d).1.2 = shape d.
Proof.
  destruct task as [t |]; [| reflexivity].
  unfold post, bind at 1.
  set (choice := if (getQueueId t =? QueueId_Any)%Z then _ else _).
  assert (Hchoice : (choice d).1.2 = d).
  { unfold choice. destruct (getQueueId t =? QueueId_Any)%Z.
    - unfold bind, get, ret.
      pose proof (post_scan_reads_only
                    (N.to_nat ((_coroQueueIdRangeForAny d).2 - (_coroQueueIdRangeForAny d).1))
                    (_coroQueueIdRangeForAny d).1 SIZE_MAX 0 d) as Hscan.
      destruct (post_scan _ _ _ _ d) as [[[index | e | |] d1] tr1]; cbn in *; congruence.
    - unfold bind, get, throw, ret. destruct (_ >=? _)%Z; reflexivity. }
  destruct (choice d) as [[[t' | e | |] d1] tr1]; cbn in Hchoice; subst d1;
    try reflexivity.
  unfold coro_at_enqueue.
  destruct (_coroQueues d !! N.to_nat (size_t_of_int (getQueueId t'))) as [q |];
    [| reflexivity].
  cbn [fst snd]. apply shape_set_coroQueues. intros v. apply length_insert.
Qed.

Lemma postAsyncIo_loop_keeps_shape (fuel : nat) (task : IoTask) (s : Frame') :
  shape (this (postAsyncIo_loop fuel task s).1.2) = shape (this s).
Proof.
  revert s. induction fuel as [| fuel IH]; intros s; [reflexivity |].
  cbn [postAsyncIo_loop].
  unfold bind at 1, pre_increment_index. unfold bind at 1, get. cbn [this static_index].
  destruct (vec_size (_sharedIoQueues (this s)) =? 0); [reflexivity |].
  unfold bind at 1, on_this, shared_at_tryEnqueue. cbn [this static_index].
  destruct (_sharedIoQueues (this s) !! _) as [q |]; [| reflexivity].
  destruct (q_tryEnqueue task q) as [q' |].
  - cbn. apply shape_set_sharedIoQueues. intros v. apply length_insert.
  - specialize (IH {| static_index := wrap_size_t (static_index s + 1); this := this s |}).
    destruct (postAsyncIo_loop fuel task _) as [[r s'] tr]. exact IH.
Qed.

Lemma postAsyncIo_keeps_shape (fuel : nat) (task : option IoTask) (s : Frame') :
  shape (this (postAsyncIo fuel task s).1.2) = shape (this s).
Proof.
  destruct task as [t |]; [| reflexivity].
  unfold postAsyncIo, bind at 1, get.
  destruct (io_getQueueId t =? QueueId_Any)%Z.
  - destruct (_loadBalanceSharedIoQueues (this s)).
    + pose proof (postAsyncIo_loop_keeps_shape fuel t s) as Hloop.
      destruct (postAsyncIo_loop fuel t s) as [[r s'] tr]. exact Hloop.
    + unfold on_this, bind, shared_index_enqueue, signal_ioQueues.
      destruct (_sharedIoQueues (this s) !! N.to_nat 0) as [q |]; [| reflexivity].
      cbn [fst snd this]. rewrite shape_set_ioQueues by (intros v; apply length_fmap).
      apply shape_set_sharedIoQueues. intros v. apply length_insert.
  - destruct (_ >=? _)%Z; [reflexivity |].
    unfold on_this, io_at_enqueue.
    destruct (_ioQueues (this s) !! _) as [q |]; [| reflexivity].
    cbn [fst snd this]. apply shape_set_ioQueues. intros v. apply length_insert.
Qed.

(** X4: the vectors are never resized.  Whatever their arguments and
    however they end, [post], [postAsyncIo], [terminate] and [resetStats]
    leave the number of coroutine queues, of shared and of private I/O
    queues, the load-balancing flag and the range for [Any] as they
    were. *)
Theorem operations_keep_the_shape d (s : Frame') (task : option Task)
    (iotask : option IoTask) (fuel : nat) :
  shape (post task d).1.2 = shape d
  /\ shape (this (postAsyncIo fuel iotask s).1.2) = shape (this s)
  /\ shape (terminate d).1.2 = shape d
  /\ shape (resetStats d).1.2 = shape d.
Proof.
  split; [apply post_keeps_shape |]. split; [apply postAsyncIo_keeps_shape |]. split.
  - rewrite terminate_spec. destruct (_terminated d); [reflexivity |].
    unfold shape, all_terminated. cbn. rewrite !length_fmap. reflexivity.
  - unfold resetStats, shape. cbn. rewrite !length_fmap. reflexivity.
Qed.

(** *** Further properties of the introspection *)

(** X8: [size], [empty] and [stats] of one coroutine queue.  For the
    index of a coroutine queue they return what that queue reports; for
    any other id but [All], negative ones included, all three throw
    "Invalid coroutine queue id". *)
Theorem coroutine_queue_introspection d queueId :
  queueId <> QueueId_All ->
  (Z.of_N (vec_size (_coroQueues d)) <= INT_MAX)%Z ->
  (forall q, (0 <= queueId)%Z -> _coroQueues d !! Z.to_nat queueId = Some q ->
     size Coro queueId d = (Ok (q_size q), d, [])
     /\ empty Coro queueId d = (Ok (q_empty q), d, [])
     /\ stats Coro queueId d = (Ok (q_stats q), d, []))
  /\ ((queueId < 0 \/ Z.of_N (vec_size (_coroQueues d)) <= queueId)%Z ->
     size Coro queueId d = (Throw (runtime_error "Invalid coroutine queue id"), d, [])
     /\ empty Coro queueId d = (Throw (runtime_error "Invalid coroutine queue id"), d, [])
     /\ stats Coro queueId d = (Throw (runtime_error "Invalid coroutine queue id"), d, [])).
Proof.
  intros Hall Hn. apply Z.eqb_neq in Hall.
  unfold size, empty, stats, coroSize, coroEmpty, coroStats, bind, get, ret, throw.
  rewrite Hall, int_of_size_t_small by assumption. split.
  - intros q Hpos Hq.
    assert (Hlt : (queueId < Z.of_N (vec_size (_coroQueues d)))%Z).
    { apply lookup_lt_Some in Hq. unfold vec_size. lia. }
    destruct (Z.geb_spec queueId (Z.of_N (vec_size (_coroQueues d)))); [lia |].
    destruct (Z.ltb_spec queueId 0); [lia |]. cbn [orb].
    rewrite size_t_of_int_nonneg by lia. rewrite Z_N_nat, Hq. repeat split.
  - intros Hout.
    destruct (Z.geb_spec queueId (Z.of_N (vec_size (_coroQueues d))));
      destruct (Z.ltb_spec queueId 0); cbn [orb]; try lia; repeat split.
Qed.

Lemma add_sizes_lt {T Q} `{IQueue T QueueStatistics Q} (v : list Q) size0 :
  size0 < 2 ^ 64 -> add_sizes v size0 < 2 ^ 64.
Proof.
  unfold add_sizes. revert size0. induction v as [| q v IH]; intros size0 Hlt; [exact Hlt |].
  cbn [fold_left]. apply IH. unfold wrap_size_t. apply N.mod_upper_bound. lia.
Qed.

Lemma add_sizes_wrapped {T Q} `{IQueue T QueueStatistics Q} (v : list Q) size0 :
  size0 < 2 ^ 64 -> add_sizes v size0 = wrap_size_t (size0 + sum_sizes v).
Proof.
  intros Hlt. rewrite <- add_sizes_sum. unfold wrap_size_t.
  symmetry. apply N.mod_small. apply add_sizes_lt. exact Hlt.
Qed.

(** X9: the I/O side of [size], [empty] and [stats].  With the queue id
    [All] they aggregate the private and the shared I/O queues, with
    [Any] the shared I/O queues alone: the sum of the sizes, whether
    every queue reports empty, and the statistics accumulated by
    [operator+=] from the default-constructed ones, private queues
    before shared ones. *)
Theorem io_queue_aggregates d :
  QueueId_Any <> QueueId_All ->
  size Io QueueId_All d
    = (Ok (wrap_size_t (sum_sizes (_ioQueues d) + sum_sizes (_sharedIoQueues d))), d, [])
  /\ size Io QueueId_Any d = (Ok (wrap_size_t (sum_sizes (_sharedIoQueues d))), d, [])
  /\ empty Io QueueId_All d
    = (Ok (forallb q_empty (_ioQueues d) && forallb q_empty (_sharedIoQueues d)), d, [])
  /\ empty Io QueueId_Any d = (Ok (forallb q_empty (_sharedIoQueues d)), d, [])
  /\ stats Io QueueId_All d
    = (Ok (fold_left stats_add_assign (q_stats <$> _sharedIoQueues d)
             (fold_left stats_add_assign (q_stats <$> _ioQueues d) stats_default)), d, [])
  /\ stats Io QueueId_Any d
    = (Ok (fold_left stats_add_assign (q_stats <$> _sharedIoQueues d) stats_default), d, []).
Proof.
  intros Hne. apply Z.eqb_neq in Hne.
  unfold size, empty, stats, ioSize, ioEmpty, ioStats, bind, get, ret.
  rewrite !Z.eqb_refl, Hne. cbn [app].
  assert (H0 : 0 < 2 ^ 64) by lia.
  split; [| split; [| split; [| split; [| split]]]].
  - do 2 f_equal. f_equal.
    rewrite (add_sizes_wrapped (_sharedIoQueues d)) by (apply add_sizes_lt; exact H0).
    apply wrap_size_t_add; [| reflexivity].
    rewrite add_sizes_sum. reflexivity.
  - do 2 f_equal. f_equal. rewrite add_sizes_wrapped by exact H0. reflexivity.
  - do 2 f_equal. f_equal. unfold all_empty.
    destruct (forallb q_empty (_sharedIoQueues d)), (forallb q_empty (_ioQueues d));
      reflexivity.
  - reflexivity.
  - rewrite !add_stats_fold. reflexivity.
  - rewrite add_stats_fold. reflexivity.
Qed.

(** X10: [size], [empty] and [stats] of one private I/O queue.  For the
    index of a private queue they return what that queue reports.  For any
    other id but the sentinels the three do not agree: [stats] checks the
    id and throws "Invalid IO queue id", while [size] and [empty] go
    straight to [vector::at], which throws [std::out_of_range]. *)
Theorem private_queue_introspection d queueId :
  queueId <> QueueId_All -> queueId <> QueueId_Any -> is_int queueId ->
  (Z.of_N (vec_size (_ioQueues d)) <= INT_MAX)%Z ->
  (forall q, (0 <= queueId)%Z -> _ioQueues d !! Z.to_nat queueId = Some q ->
     size Io queueId d = (Ok (q_size q), d, [])
     /\ empty Io queueId d = (Ok (q_empty q), d, [])
     /\ stats Io queueId d = (Ok (q_stats q), d, []))
  /\ ((queueId < 0 \/ Z.of_N (vec_size (_ioQueues d)) <= queueId)%Z ->
     size Io queueId d = (Throw out_of_range, d, [])
     /\ empty Io queueId d = (Throw out_of_range, d, [])
     /\ stats Io queueId d = (Throw (runtime_error "Invalid IO queue id"), d, [])).
Proof.
  intros Hall Hany [Hmin Hmax] Hn. apply Z.eqb_neq in Hall, Hany.
  unfold size, empty, stats, ioSize, ioEmpty, ioStats, bind, get, ret, throw.
  rewrite Hall, Hany, int_of_size_t_small by assumption. split.
  - intros q Hpos Hq.
    assert (Hlt : (queueId < Z.of_N (vec_size (_ioQueues d)))%Z).
    { apply lookup_lt_Some in Hq. unfold vec_size. lia. }
    destruct (Z.geb_spec queueId (Z.of_N (vec_size (_ioQueues d)))); [lia |].
    destruct (Z.ltb_spec queueId 0); [lia |]. cbn [orb].
    rewrite size_t_of_int_nonneg by lia. rewrite Z_N_nat, Hq. repeat split.
  - intros Hout.
    assert (Hnone : _ioQueues d !! N.to_nat (size_t_of_int queueId) = None).
    { apply lookup_vec_ge. destruct (Z.ltb_spec queueId 0).
      - rewrite size_t_of_int_neg by (unfold INT_MIN in *; lia).
        unfold INT_MIN, INT_MAX in *. lia.
      - rewrite size_t_of_int_nonneg by lia. lia. }
    rewrite Hnone.
    destruct (Z.geb_spec queueId (Z.of_N (vec_size (_ioQueues d))));
      destruct (Z.ltb_spec queueId 0); cbn [orb]; try lia; repeat split.
Qed.

Lemma all_empty_sum {T Q} `{IQueue T QueueStatistics Q} (v : list Q) :
  (forall q : Q, q_empty q = (q_size q =? 0)) ->
  all_empty v = (sum_sizes v =? 0).
Proof.
  intros Hlaw. unfold all_empty, sum_sizes.
  induction v as [| q v IH]; [reflexivity |].
  cbn [forallb foldr]. rewrite IH, Hlaw.
  destruct (N.eqb_spec (q_size q) 0) as [-> | Hnz]; cbn [andb].
  - rewrite N.add_0_l. reflexivity.
  - symmetry. apply N.eqb_neq. lia.
Qed.

(** X11: [empty] agrees with [size].  Over queues that report empty
    exactly when their size is 0, and as long as the total fits a
    [size_t], [size(All, All)] is the total number of queued tasks and
    [empty(All, All)] says whether it is 0. *)
Theorem empty_agrees_with_size d :
  (forall q : TaskQueue, q_empty q = (q_size q =? 0)) ->
  (forall q : IoQueue, q_empty q = (q_size q =? 0)) ->
  sum_sizes (_coroQueues d) + sum_sizes (_ioQueues d) + sum_sizes (_sharedIoQueues d)
    < 2 ^ 64 ->
  size All QueueId_All d
    = (Ok (sum_sizes (_coroQueues d) + sum_sizes (_ioQueues d)
           + sum_sizes (_sharedIoQueues d)), d, [])
  /\ empty All QueueId_All d
    = (Ok (sum_sizes (_coroQueues d) + sum_sizes (_ioQueues d)
           + sum_sizes (_sharedIoQueues d) =? 0), d, []).
Proof.
  intros Hcoro Hio Hfit.
  rewrite size_All_spec, empty_All_spec, Z.eqb_refl. split.
  - unfold wrap_size_t. rewrite N.mod_small by exact Hfit. reflexivity.
  - rewrite !all_empty_sum by assumption. do 3 f_equal.
    destruct (N.eqb_spec (sum_sizes (_coroQueues d)) 0) as [-> | Hc]; cbn [andb];
      [| symmetry; apply N.eqb_neq; lia].
    destruct (N.eqb_spec (sum_sizes (_ioQueues d)) 0) as [-> | Hi]; cbn [andb];
      [| symmetry; apply N.eqb_neq; lia].
    reflexivity.
Qed.

(** *** Further properties of construction *)

(** X12: what [DispatcherCore(const Configuration&)] establishes.  The
    dispatcher starts not terminated and with load balancing of the
    shared I/O queues off; it has as many shared as private I/O queues,
    at least one of each; and as soon as it has a coroutine queue its
    range for [Any] is a non-empty range of coroutine queue indices. *)
Theorem construction_from_config_invariant config :
  is_int (numIoThreads config) ->
  (pinCoroutineThreadsToCores config = true -> 0 < hardware_concurrency) ->
  exists d,
    DispatcherCore_of_config config = Ok d /\
    _terminated d = false /\
    _loadBalanceSharedIoQueues d = false /\
    vec_size (_ioQueues d) = io_thread_count (numIoThreads config) /\
    vec_size (_sharedIoQueues d) = vec_size (_ioQueues d) /\
    0 < vec_size (_ioQueues d) /\
    (0 < vec_size (_coroQueues d) ->
     (_coroQueueIdRangeForAny d).1 < (_coroQueueIdRangeForAny d).2
     /\ (_coroQueueIdRangeForAny d).2 <= vec_size (_coroQueues d)).
Proof.
  intros Hm Hhw. unfold DispatcherCore_of_config.
  destruct (pin_coroQueues_ok (pinCoroutineThreadsToCores config)
              (replicate (N.to_nat (coroutine_thread_count (numCoroutineThreads config)))
                         (TaskQueue_new config)) Hhw) as (v' & -> & Hsize).
  eexists. split; [reflexivity |].
  cbn [_terminated _loadBalanceSharedIoQueues _ioQueues _sharedIoQueues _coroQueues
       _coroQueueIdRangeForAny].
  rewrite !vec_size_replicate. pose proof (io_thread_count_pos _ Hm).
  repeat (split; [first [reflexivity | assumption] |]).
  intros Hpos. destruct (coroQueueIdRangeForAny config) as [lo hi]. cbn [fst snd].
  destruct (N.ltb_spec lo hi), (N.ltb_spec lo (vec_size v')), (N.leb_spec hi (vec_size v'));
    cbn [andb fst snd]; lia.
Qed.

(** X13: after [DispatcherCore(const Configuration&)] the getters return
    the configured thread counts, with the same conventions as for the
    other constructor: the hardware concurrency for -1 and one thread for
    0 coroutine threads, one thread for an I/O thread count of 0 or
    less. *)
Theorem thread_counts_after_construction_from_config config :
  is_int (numCoroutineThreads config) -> is_int (numIoThreads config) ->
  (numCoroutineThreads config = (-1)%Z -> (Z.of_N hardware_concurrency <= INT_MAX)%Z) ->
  (pinCoroutineThreadsToCores config = true -> 0 < hardware_concurrency) ->
  exists d,
    DispatcherCore_of_config config = Ok d /\
    getNumCoroutineThreads d =
      (if (numCoroutineThreads config =? -1)%Z then Z.of_N hardware_concurrency
       else if (numCoroutineThreads config =? 0)%Z then 1%Z
       else numCoroutineThreads config) /\
    getNumIoThreads d =
      (if (numIoThreads config <=? 0)%Z then 1%Z else numIoThreads config).
Proof.
  intros Hn Hm Hhwmax Hhw. unfold DispatcherCore_of_config.
  destruct (pin_coroQueues_ok (pinCoroutineThreadsToCores config)
              (replicate (N.to_nat (coroutine_thread_count (numCoroutineThreads config)))
                         (TaskQueue_new config)) Hhw) as (v' & -> & Hsize).
  eexists. split; [reflexivity |].
  unfold getNumCoroutineThreads, getNumIoThreads. cbn [_coroQueues _ioQueues].
  rewrite Hsize, !vec_size_replicate. split.
  - unfold coroutine_thread_count.
    destruct (Z.eqb_spec (numCoroutineThreads config) (-1)) as [Hminus | _];
      [apply int_of_size_t_small, Hhwmax, Hminus |].
    destruct (numCoroutineThreads config =? 0)%Z; [reflexivity |].
    apply int_of_uint_of_int. exact Hn.
  - unfold io_thread_count.
    destruct (Z.leb_spec (numIoThreads config) 0) as [Hle | Hgt]; [reflexivity |].
    destruct Hm as [_ Hmax].
    rewrite size_t_of_int_nonneg by lia.
    rewrite int_of_size_t_small; rewrite Z2N.id; lia.
Qed.

(** X14: what [DispatcherCore(int, int, bool)] establishes: not
    terminated, load balancing off, as many shared as private I/O queues
    and at least one of each, and the range for [Any] covering all the
    coroutine queues. *)
Theorem default_construction_invariant (n m : Z) (pin : bool) :
  is_int m ->
  (pin = true -> 0 < hardware_concurrency) ->
  exists d,
    DispatcherCore_new n m pin = Ok d /\
    _terminated d = false /\
    _loadBalanceSharedIoQueues d = false /\
    vec_size (_ioQueues d) = io_thread_count m /\
    vec_size (_sharedIoQueues d) = vec_size (_ioQueues d) /\
    0 < vec_size (_ioQueues d) /\
    getCoroQueueIdRangeForAny d = (0, vec_size (_coroQueues d)).
Proof.
  intros Hm Hhw. unfold DispatcherCore_new.
  destruct (pin_coroQueues_ok pin
              (replicate (N.to_nat (coroutine_thread_count n)) TaskQueue_default) Hhw)
    as (v' & -> & Hsize).
  eexists. split; [reflexivity |].
  unfold getCoroQueueIdRangeForAny.
  cbn [_terminated _loadBalanceSharedIoQueues _ioQueues _sharedIoQueues _coroQueues
       _coroQueueIdRangeForAny].
  rewrite !vec_size_replicate, Hsize. pose proof (io_thread_count_pos _ Hm).
  rewrite vec_size_replicate. repeat (split; [first [reflexivity | assumption] |]).
  reflexivity.
Qed.

(** X15: pinning.  When asked to pin and the hardware reports at least
    one core, either constructor pins coroutine queue [k] to core
    [k mod cores], so the queues go round the cores in order; when not
    asked, either constructor leaves the queues as they were built. *)
Theorem pinning_goes_round_the_cores (n m : Z) (config : Configuration) (k : nat) :
  0 < hardware_concurrency ->
  (N.of_nat k < coroutine_thread_count n ->
   exists d, DispatcherCore_new n m true = Ok d /\
             _coroQueues d !! k
             = Some (q_pinToCore (N.of_nat k mod hardware_concurrency) TaskQueue_default))
  /\ (N.of_nat k < coroutine_thread_count (numCoroutineThreads config) ->
      pinCoroutineThreadsToCores config = true ->
      exists d, DispatcherCore_of_config config = Ok d /\
                _coroQueues d !! k
                = Some (q_pinToCore (N.of_nat k mod hardware_concurrency)
                                    (TaskQueue_new config)))
  /\ (N.of_nat k < coroutine_thread_count n ->
      exists d, DispatcherCore_new n m false = Ok d /\
                _coroQueues d !! k = Some TaskQueue_default)
  /\ (N.of_nat k < coroutine_thread_count (numCoroutineThreads config) ->
      pinCoroutineThreadsToCores config = false ->
      exists d, DispatcherCore_of_config config = Ok d /\
                _coroQueues d !! k = Some (TaskQueue_new config)).
Proof.
  intros Hhw.
  assert (Hpin : forall (v : list TaskQueue),
             pin_coroQueues true v
             = Ok (imap (fun a q => q_pinToCore (N.of_nat a mod hardware_concurrency) q) v)).
  { intros v. unfold pin_coroQueues.
    destruct (N.eqb_spec hardware_concurrency 0); [lia | reflexivity]. }
  split; [| split; [| split]].
  - intros Hk. unfold DispatcherCore_new. rewrite Hpin.
    eexists. split; [reflexivity |]. cbn [_coroQueues].
    rewrite list_lookup_imap, lookup_replicate_2 by lia. reflexivity.
  - intros Hk Hflag. unfold DispatcherCore_of_config. rewrite Hflag, Hpin.
    eexists. split; [reflexivity |]. cbn [_coroQueues].
    rewrite list_lookup_imap, lookup_replicate_2 by lia. reflexivity.
  - intros Hk. unfold DispatcherCore_new. cbn [pin_coroQueues].
    eexists. split; [reflexivity |]. cbn [_coroQueues].
    rewrite lookup_replicate_2 by lia. reflexivity.
  - intros Hk Hflag. unfold DispatcherCore_of_config. rewrite Hflag.
    cbn [pin_coroQueues].
    eexists. split; [reflexivity |]. cbn [_coroQueues].
    rewrite lookup_replicate_2 by lia. reflexivity.
Qed.

(** X16: pinning on hardware that reports no core.  When
    [hardware_concurrency()] returns 0, a constructor asked to pin takes
    the remainder of a division by zero for its first coroutine queue:
    construction with a positive thread count has undefined behaviour,
    and is safe only with no coroutine queue at all. *)
Theorem pinning_without_cores_is_undefined (n m : Z) :
  hardware_concurrency = 0 ->
  (0 < coroutine_thread_count n -> DispatcherCore_new n m true = Undefined)
  /\ (n = (-1)%Z -> exists d, DispatcherCore_new n m true = Ok d /\ _coroQueues d = []).
Proof.
  intros Hhw. unfold DispatcherCore_new, pin_coroQueues. split.
  - intros Hpos. rewrite vec_size_replicate, Hhw.
    destruct (N.eqb_spec (coroutine_thread_count n) 0); [lia | reflexivity].
  - intros ->. unfold coroutine_thread_count. cbn [Z.eqb Pos.eqb].
    rewrite Hhw. cbn. eexists. split; reflexivity.
Qed.

(** *** resetStats *)

Lemma add_stats_reset {T Q} `{IQueue T QueueStatistics Q} `{IResetStats Q} (v : list Q) :
  (forall q : Q, q_stats (q_resetStats q) = stats_default) ->
  stats_add_assign stats_default stats_default = stats_default ->
  add_stats (q_resetStats <$> v) stats_default = stats_default.
Proof.
  intros Hreset Hneutral. unfold add_stats.
  induction v as [| q v IH]; [reflexivity |].
  cbn [fmap list_fmap fold_left]. rewrite Hreset, Hneutral. exact IH.
Qed.

(** X17: [resetStats] reaches every queue.  Over queues whose statistics
    are the default ones once reset, and statistics for which adding
    default to default gives default, after [resetStats] every statistics
    query that returns, for one queue or for an aggregate, returns the
    default statistics; the aggregate over all queues does return. *)
Theorem resetStats_resets_every_queue d type queueId s :
  (forall q : TaskQueue, q_stats (q_resetStats q) = stats_default) ->
  (forall q : IoQueue, q_stats (q_resetStats q) = stats_default) ->
  stats_add_assign stats_default stats_default = stats_default ->
  stats_add stats_default stats_default = stats_default ->
  (stats type queueId (resetStats d).1.2).1.1 = Ok s ->
  s = stats_default
  /\ stats All QueueId_All (resetStats d).1.2 = (Ok stats_default, (resetStats d).1.2, []).
Proof.
  intros Hcoro Hio Hassign Hadd Hquery.
  assert (Hc : add_stats (_coroQueues (resetStats d).1.2) stats_default = stats_default)
    by (apply add_stats_reset; assumption).
  assert (Hp : add_stats (_ioQueues (resetStats d).1.2) stats_default = stats_default)
    by (apply add_stats_reset; assumption).
  assert (Hs : add_stats (_sharedIoQueues (resetStats d).1.2) stats_default = stats_default)
    by (apply add_stats_reset; assumption).
  assert (Hall : stats All QueueId_All (resetStats d).1.2
                 = (Ok stats_default, (resetStats d).1.2, [])).
  { rewrite stats_All_spec, Z.eqb_refl, Hp, Hs, Hc, Hadd. reflexivity. }
  split; [| exact Hall].
  assert (Hone_coro : forall k q, _coroQueues (resetStats d).1.2 !! k = Some q ->
                                  q_stats q = stats_default).
  { intros k q. cbn. rewrite list_lookup_fmap.
    destruct (_coroQueues d !! k); [| discriminate]. intros [= <-]. apply Hcoro. }
  assert (Hone_io : forall k q, _ioQueues (resetStats d).1.2 !! k = Some q ->
                                q_stats q = stats_default).
  { intros k q. cbn. rewrite list_lookup_fmap.
    destruct (_ioQueues d !! k); [| discriminate]. intros [= <-]. apply Hio. }
  revert Hquery. generalize dependent (resetStats d).1.2. intros d' Hc Hp Hs _ Hone_coro Hone_io.
  destruct type; unfold stats, coroStats, ioStats, bind, get, ret, throw.
  - destruct (queueId =? QueueId_All)%Z; cbn [fst snd]; [rewrite Hc; congruence |].
    destruct (_ || _); [discriminate |].
    destruct (_coroQueues d' !! _) as [q |] eqn:Hq; [| discriminate].
    cbn [fst snd]. intros [= <-]. exact (Hone_coro _ _ Hq).
  - destruct (queueId =? QueueId_All)%Z; cbn [fst snd]; [rewrite Hp, Hs; congruence |].
    destruct (queueId =? QueueId_Any)%Z; cbn [fst snd]; [rewrite Hs; congruence |].
    destruct (_ || _); [discriminate |].
    destruct (_ioQueues d' !! _) as [q |] eqn:Hq; [| discriminate].
    cbn [fst snd]. intros [= <-]. exact (Hone_io _ _ Hq).
  - destruct (queueId =? QueueId_All)%Z; cbn [negb fst snd]; [| discriminate].
    rewrite Z.eqb_refl. cbn [fst snd]. rewrite Hp, Hs, Hc, Hadd. congruence.
Qed.

Lemma add_sizes_reset {T Q} `{IQueue T QueueStatistics Q} `{IResetStats Q} (v : list Q) size0 :
  (forall q : Q, q_size (q_resetStats q) = q_size q) ->
  add_sizes (q_resetStats <$> v) size0 = add_sizes v size0.
Proof.
  intros Hlaw. unfold add_sizes. revert size0.
  induction v as [| q v IH]; intros size0; [reflexivity |].
  cbn [fmap list_fmap fold_left]. rewrite Hlaw. apply IH.
Qed.

Lemma all_empty_reset {T Q} `{IQueue T QueueStatistics Q} `{IResetStats Q} (v : list Q) :
  (forall q : Q, q_empty (q_resetStats q) = q_empty q) ->
  all_empty (q_resetStats <$> v) = all_empty v.
Proof.
  intros Hlaw. unfold all_empty. induction v as [| q v IH]; [reflexivity |].
  cbn [fmap list_fmap forallb]. rewrite Hlaw. f_equal. exact IH.
Qed.

Lemma vec_size_fmap {A B} (f : A -> B) (v : list A) : vec_size (f <$> v) = vec_size v.
Proof. unfold vec_size. rewrite length_fmap. reflexivity. Qed.

(** X18: [resetStats] resets statistics only.  Over queues whose size and
    emptiness do not depend on their statistics, every [size] and every
    [empty] query answers after [resetStats] as it did before, whether
    with a value or with an exception. *)
Theorem resetStats_keeps_sizes d type queueId :
  (forall q : TaskQueue, q_size (q_resetStats q) = q_size q) ->
  (forall q : TaskQueue, q_empty (q_resetStats q) = q_empty q) ->
  (forall q : IoQueue, q_size (q_resetStats q) = q_size q) ->
  (forall q : IoQueue, q_empty (q_resetStats q) = q_empty q) ->
  (size type queueId (resetStats d).1.2).1.1 = (size type queueId d).1.1
  /\ (empty type queueId (resetStats d).1.2).1.1 = (empty type queueId d).1.1.
Proof.
  intros Hcs Hce His Hie.
  assert (HcoroSize : forall id, (coroSize id (resetStats d).1.2).1.1 = (coroSize id d).1.1).
  { intros id. unfold coroSize, bind, get, ret, throw. cbn [resetStats fst snd
      set_ioQueues set_sharedIoQueues set_coroQueues _coroQueues].
    rewrite vec_size_fmap, add_sizes_reset by assumption.
    destruct (id =? QueueId_All)%Z; [reflexivity |].
    destruct (_ || _); [reflexivity |].
    rewrite list_lookup_fmap. destruct (_coroQueues d !! _) as [q |]; [| reflexivity].
    cbn. rewrite Hcs. reflexivity. }
  assert (HcoroEmpty : forall id, (coroEmpty id (resetStats d).1.2).1.1 = (coroEmpty id d).1.1).
  { intros id. unfold coroEmpty, bind, get, ret, throw. cbn [resetStats fst snd
      set_ioQueues set_sharedIoQueues set_coroQueues _coroQueues].
    rewrite vec_size_fmap, all_empty_reset by assumption.
    destruct (id =? QueueId_All)%Z; [reflexivity |].
    destruct (_ || _); [reflexivity |].
    rewrite list_lookup_fmap. destruct (_coroQueues d !! _) as [q |]; [| reflexivity].
    cbn. rewrite Hce. reflexivity. }
  assert (HioSize : forall id, (ioSize id (resetStats d).1.2).1.1 = (ioSize id d).1.1).
  { intros id. unfold ioSize, bind, get, ret, throw. cbn [resetStats fst snd
      set_ioQueues set_sharedIoQueues set_coroQueues _ioQueues _sharedIoQueues].
    rewrite !add_sizes_reset by assumption.
    destruct (id =? QueueId_All)%Z; [reflexivity |].
    destruct (id =? QueueId_Any)%Z; [reflexivity |].
    rewrite list_lookup_fmap. destruct (_ioQueues d !! _) as [q |]; [| reflexivity].
    cbn. rewrite His. reflexivity. }
  assert (HioEmpty : forall id, (ioEmpty id (resetStats d).1.2).1.1 = (ioEmpty id d).1.1).
  { intros id. unfold ioEmpty, bind, get, ret, throw. cbn [resetStats fst snd
      set_ioQueues set_sharedIoQueues set_coroQueues _ioQueues _sharedIoQueues].
    rewrite !all_empty_reset by assumption.
    destruct (id =? QueueId_All)%Z; [reflexivity |].
    destruct (id =? QueueId_Any)%Z; [reflexivity |].
    rewrite list_lookup_fmap. destruct (_ioQueues d !! _) as [q |]; [| reflexivity].
    cbn. rewrite Hie. reflexivity. }
  destruct type;
    [unfold size, empty; split; [apply HcoroSize | apply HcoroEmpty]
    |unfold size, empty; split; [apply HioSize | apply HioEmpty] |].
  rewrite !size_All_spec, !empty_All_spec.
  destruct (queueId =? QueueId_All)%Z; [| split; reflexivity].
  cbn [resetStats fst snd set_ioQueues set_sharedIoQueues set_coroQueues
       _coroQueues _ioQueues _sharedIoQueues].
  rewrite !all_empty_reset by assumption. split; [| reflexivity].
  do 2 f_equal.
  assert (Hsum : forall {T Q} `{IQueue T QueueStatistics Q} `{IResetStats Q} (v : list Q),
             (forall q : Q, q_size (q_resetStats q) = q_size q) ->
             sum_sizes (q_resetStats <$> v) = sum_sizes v).
  { intros T Q ? ? v Hlaw. unfold sum_sizes. induction v as [| q v IH]; [reflexivity |].
    cbn [fmap list_fmap foldr]. rewrite Hlaw. f_equal. exact IH. }
  rewrite !Hsum by assumption. reflexivity.
Qed.

(** *** Conservation of tasks *)

Lemma postAsyncIo_loop_returns (fuel : nat) (task : IoTask) (s s' : Frame') tr :
  postAsyncIo_loop fuel task s = (Ok tt, s', tr) ->
  exists (n : nat) q q',
    _sharedIoQueues (this s) !! n = Some q /\ q_tryEnqueue task q = Some q' /\
    this s' = set_sharedIoQueues (<[n := q']>) (this s).
Proof.
  revert s tr. induction fuel as [| fuel IH]; intros s tr; [discriminate |].
  cbn [postAsyncIo_loop].
  unfold bind at 1, pre_increment_index. unfold bind at 1, get. cbn [this static_index].
  destruct (vec_size (_sharedIoQueues (this s)) =? 0); [discriminate |].
  unfold bind at 1, on_this, shared_at_tryEnqueue. cbn [this static_index].
  destruct (_sharedIoQueues (this s) !! _) as [q |] eqn:Hq; [| discriminate].
  destruct (q_tryEnqueue task q) as [q' |] eqn:Hq'.
  - cbn. intros [= <- _]. eexists _, q, q'. split; [exact Hq |]. split; [exact Hq' |].
    reflexivity.
  - specialize (IH {| static_index := wrap_size_t (static_index s + 1); this := this s |}).
    destruct (postAsyncIo_loop fuel task _) as [[r s1] tr1]. cbn [app].
    intros [= -> -> _]. exact (IH tr1 eq_refl).
Qed.

Lemma sum_sizes_fmap {T Q} `{IQueue T QueueStatistics Q} (f : Q -> Q) (v : list Q) :
  (forall q : Q, q_size (f q) = q_size q) -> sum_sizes (f <$> v) = sum_sizes v.
Proof.
  intros Hlaw. unfold sum_sizes. induction v as [| q v IH]; [reflexivity |].
  cbn [fmap list_fmap foldr]. rewrite Hlaw. f_equal. exact IH.
Qed.

(** X19: over I/O queues whose [enqueue], and whose [tryEnqueue] when it
    accepts, add one to their size, and whose size a signal does not
    change, every [postAsyncIo] of a task (a non-null pointer) that
    returns has added exactly one task to the I/O queues, private and
    shared taken together, whichever of its three routes it took; no
    coroutine queue is touched. *)
Theorem postAsyncIo_adds_one_task (fuel : nat) (s s' : Frame') (task : IoTask) tr :
  (forall (t0 : IoTask) (q : IoQueue), q_size (q_enqueue t0 q) = q_size q + 1) ->
  (forall (t0 : IoTask) (q q' : IoQueue),
     q_tryEnqueue t0 q = Some q' -> q_size q' = q_size q + 1) ->
  (forall (b : bool) (q : IoQueue), q_size (q_signalEmptyCondition b q) = q_size q) ->
  postAsyncIo fuel (Some task) s = (Ok tt, s', tr) ->
  sum_sizes (_ioQueues (this s')) + sum_sizes (_sharedIoQueues (this s'))
    = sum_sizes (_ioQueues (this s)) + sum_sizes (_sharedIoQueues (this s)) + 1
  /\ _coroQueues (this s') = _coroQueues (this s).
Proof.
  intros Henq Htry Hsig. unfold postAsyncIo, bind at 1, get.
  destruct (io_getQueueId task =? QueueId_Any)%Z.
  - destruct (_loadBalanceSharedIoQueues (this s)).
    + destruct (postAsyncIo_loop fuel task s) as [[r s1] tr1] eqn:Hloop. cbn [app].
      intros [= -> -> _].
      destruct (postAsyncIo_loop_returns fuel task s s' tr1 Hloop)
        as (n & q & q' & Hq & Hq' & ->).
      cbn [set_sharedIoQueues _ioQueues _sharedIoQueues _coroQueues].
      split; [| reflexivity].
      pose proof (sum_sizes_insert (_sharedIoQueues (this s)) n q q' Hq) as Hsum.
      rewrite (Htry _ _ _ Hq') in Hsum. lia.
    + unfold on_this, bind, shared_index_enqueue, signal_ioQueues.
      destruct (_sharedIoQueues (this s) !! N.to_nat 0) as [q |] eqn:Hq; [| discriminate].
      cbn [app]. intros [= <- _].
      cbn [this set_ioQueues set_sharedIoQueues _ioQueues _sharedIoQueues _coroQueues].
      split; [| reflexivity].
      rewrite sum_sizes_fmap by (intros q0; apply Hsig).
      pose proof (sum_sizes_insert (_sharedIoQueues (this s)) (N.to_nat 0) q
                    (q_enqueue task q) Hq) as Hsum.
      rewrite Henq in Hsum. lia.
  - destruct (_ >=? _)%Z; [discriminate |].
    unfold on_this, io_at_enqueue.
    destruct (_ioQueues (this s) !! _) as [q |] eqn:Hq; [| discriminate].
    cbn [app]. intros [= <- _].
    cbn [this set_ioQueues _ioQueues _sharedIoQueues _coroQueues].
    split; [| reflexivity].
    pose proof (sum_sizes_insert (_ioQueues (this s)) _ q (q_enqueue task q) Hq) as Hsum.
    rewrite Henq in Hsum. lia.
Qed.

End DispatcherCore.

(** ** The claims on concrete dispatchers *)

(** C1: [post] of a task whose queue id is [Any], on a dispatcher whose
    range for [Any] is a non-empty range [[lo, hi)] of queue indices,
    reads the sizes of the queues [lo, lo+1, ...] once each, in order, up
    to the first empty queue or else up to [hi-1], and enqueues the task,
    its queue id overwritten, on the lowest-index queue of minimal size
    in the range, which lies in [[lo, hi)].  In particular, with four
    coroutine queues of depths 5, 2, 2 and 7 and the default range the
    task goes to queue 1. *)
Theorem post_any_routes_to_shortest_queue :
  (forall (IoTask QueueStatistics TaskQueue IoQueue : Type)
          (TaskQueueOps : IQueue Task QueueStatistics TaskQueue)
          (QueueId_Any : Z) (d : DispatcherCore TaskQueue IoQueue) (t : Task),
      getQueueId t = QueueId_Any -> range_valid d -> depths_below_max d ->
      let lo := (_coroQueueIdRangeForAny d).1 in
      let hi := (_coroQueueIdRangeForAny d).2 in
      exists index stop q,
        shortest_in_range d lo hi index /\
        first_empty_or_last d lo hi stop /\
        _coroQueues d !! N.to_nat index = Some q /\
        post (IoTask := IoTask) QueueId_Any (Some t) d =
          (Ok tt,
           set_coroQueues (<[N.to_nat index := q_enqueue (setQueueId (Z.of_N index) t) q]>) d,
           size_reads lo stop ++ [on_coro index (enqueue_ (setQueueId (Z.of_N index) t))]))
  /\ post (IoTask := SimpleIoTask) Any_id (Some any_task) dispatcher_S3 =
       (Ok tt,
        set_coroQueues (<[1%nat := fifo_enqueue (mkTask 7 1 true) (filled old_task 2)]>)
                       dispatcher_S3,
        [on_coro 0 size_; on_coro 1 size_; on_coro 2 size_; on_coro 3 size_;
         on_coro 1 (enqueue_ (mkTask 7 1 true))]).
Proof.
  split.
  - intros IoTask QueueStatistics TaskQueue IoQueue TaskQueueOps QueueId_Any d t Hany Hrange Hmax.
    apply post_any_spec; assumption.
  - vm_compute. reflexivity.
Qed.

(** The dispatcher of scenario S3 satisfies the assumptions of the routing
    theorem. *)
Lemma depths_below_max_S3 : depths_below_max dispatcher_S3.
Proof.
  intros q Hq. cbn in Hq.
  repeat (apply elem_of_cons in Hq as [-> | Hq]; [vm_compute; reflexivity |]).
  apply elem_of_nil in Hq. contradiction.
Qed.

Lemma range_valid_S3 : range_valid dispatcher_S3.
Proof. unfold range_valid. repeat split; vm_compute; congruence. Qed.

(** The routing theorem applied to scenario S3. *)
Lemma post_any_routes_to_shortest_queue_witness :
  exists index stop q,
    shortest_in_range dispatcher_S3 0 4 index /\
    first_empty_or_last dispatcher_S3 0 4 stop /\
    _coroQueues dispatcher_S3 !! N.to_nat index = Some q /\
    post (IoTask := SimpleIoTask) Any_id (Some any_task) dispatcher_S3 =
      (Ok tt,
       set_coroQueues
         (<[N.to_nat index := q_enqueue (setQueueId (Z.of_N index) any_task) q]>)
         dispatcher_S3,
       size_reads 0 stop ++ [on_coro index (enqueue_ (setQueueId (Z.of_N index) any_task))]).
Proof.
  exact (proj1 post_any_routes_to_shortest_queue SimpleIoTask N (Fifo Task) (Fifo SimpleIoTask)
               fifo_queue Any_id dispatcher_S3 any_task eq_refl
               range_valid_S3 depths_below_max_S3).
Defined.

(** C2, as stated, fails: two dispatchers share the index.  From index 0
    the next [Any] submission on [dispatcher_rr_B] selects its shared
    queue 1; one [Any] submission on [dispatcher_rr] moves the index to 1,
    and from the index that call leaves behind the same submission on
    [dispatcher_rr_B] selects its shared queue 0. *)
Lemma round_robin_index_not_per_dispatcher :
  selected_shared
    (postAsyncIo io_queueId Any_id 1 (Some any_io_task)
       {| static_index := 0; this := dispatcher_rr_B |}).2 = Some 1
  /\ selected_shared
       (postAsyncIo io_queueId Any_id 1 (Some any_io_task)
          {| static_index :=
               static_index
                 (postAsyncIo io_queueId Any_id 1 (Some any_io_task)
                    {| static_index := 0; this := dispatcher_rr |}).1.2;
             this := dispatcher_rr_B |}).2 = Some 0.
Proof. split; vm_compute; reflexivity. Qed.

(** On [dispatcher_rr] and on [dispatcher_rr_B] the first attempt is accepted. *)
Lemma first_accepted_rr : first_accepted dispatcher_rr any_io_task 0 1.
Proof.
  split; [lia |]. split; [vm_compute; reflexivity |]. intros a Ha. lia.
Qed.

Lemma first_accepted_rr_B : first_accepted dispatcher_rr_B any_io_task (advance 0 1) 1.
Proof.
  split; [lia |]. split; [vm_compute; reflexivity |]. intros a Ha. lia.
Qed.

(** One submission on [dispatcher_rr], then one on [dispatcher_rr_B],
    from index 0. *)
Lemma round_robin_index_is_process_wide_witness :
  exists A' B' trA trB,
    postAsyncIo io_queueId Any_id 1 (Some any_io_task)
        {| static_index := 0; this := dispatcher_rr |}
      = (Ok tt, {| static_index := advance 0 1; this := A' |}, trA) /\
    postAsyncIo io_queueId Any_id 1 (Some any_io_task)
        {| static_index := advance 0 1; this := dispatcher_rr_B |}
      = (Ok tt, {| static_index := advance 0 (1 + 1); this := B' |}, trB) /\
    selected_shared trB = Some (slot dispatcher_rr_B (advance 0 (1 + 1))).
Proof.
  exact (round_robin_index_is_process_wide io_queueId Any_id dispatcher_rr dispatcher_rr_B 0
           any_io_task any_io_task 1 1 1 1
           eq_refl eq_refl eq_refl eq_refl eq_refl eq_refl
           first_accepted_rr first_accepted_rr_B (le_n 1) (le_n 1)).
Defined.

(** An [Any] submission on [dispatcher_io], whose load balancing is off. *)
Lemma postAsyncIo_any_goes_to_shared_queue_0_witness :
  exists q0 s' tr,
    _sharedIoQueues dispatcher_io !! 0%nat = Some q0 /\
    postAsyncIo io_queueId Any_id 0 (Some any_io_task)
        {| static_index := 5; this := dispatcher_io |} = (Ok tt, s', tr) /\
    tr = on_shared 0 (enqueue_ any_io_task)
           :: calls_in_order on_io (signalEmptyCondition_ false)
                             (length (_ioQueues dispatcher_io)) /\
    _sharedIoQueues (this s')
      = <[0%nat := q_enqueue any_io_task q0]> (_sharedIoQueues dispatcher_io) /\
    _ioQueues (this s') = q_signalEmptyCondition false <$> _ioQueues dispatcher_io /\
    _coroQueues (this s') = _coroQueues dispatcher_io /\
    static_index s' = 5 /\
    forallb (fun e => negb (gives_to_private e)) tr = true.
Proof.
  exact (postAsyncIo_any_goes_to_shared_queue_0 io_queueId Any_id 0
           {| static_index := 5; this := dispatcher_io |} any_io_task
           eq_refl eq_refl eq_refl).
Defined.

(** An [Any] submission on [dispatcher_lb], whose shared queue 0 accepts. *)
Lemma shared_queues_fit_size_t : vec_size (_sharedIoQueues dispatcher_lb) <= 2 ^ 64.
Proof. vm_compute. congruence. Qed.

Lemma postAsyncIo_any_round_robin_witness :
  exists (k : nat) qk qk',
    let s := {| static_index := 0; this := dispatcher_lb |} in
    let chosen := slot dispatcher_lb (advance 0 k) in
    (1 <= k <= 2 * length (_sharedIoQueues dispatcher_lb))%nat /\
    first_accepted dispatcher_lb any_io_task 0 k /\
    _sharedIoQueues dispatcher_lb !! N.to_nat chosen = Some qk /\
    q_tryEnqueue any_io_task qk = Some qk' /\
    forall fuel : nat, (k <= fuel)%nat ->
      exists tr,
        postAsyncIo io_queueId Any_id fuel (Some any_io_task) s =
          (Ok tt,
           {| static_index := advance 0 k;
              this := set_sharedIoQueues (<[N.to_nat chosen := qk']>) dispatcher_lb |},
           tr) /\
        tr = refusals dispatcher_lb any_io_task 0 k
               ++ [on_shared chosen (tryEnqueue_ any_io_task true)] /\
        filter (fun e => gives_task e = true) tr
          = [on_shared chosen (tryEnqueue_ any_io_task true)].
Proof.
  exact (postAsyncIo_any_round_robin io_queueId Any_id
           {| static_index := 0; this := dispatcher_lb |} any_io_task
           0 (filled old_io_task 0) (fifo_enqueue any_io_task (filled old_io_task 0))
           eq_refl eq_refl shared_queues_fit_size_t eq_refl eq_refl).
Defined.

(** On [dispatcher_lb] the full shared queue 1 is skipped and the task
    lands on shared queue 2, after two attempts. *)
Example postAsyncIo_skips_full_queue :
  postAsyncIo io_queueId Any_id 2 (Some any_io_task)
      {| static_index := 0; this := dispatcher_lb |}
  = (Ok tt,
     {| static_index := 2;
        this := set_sharedIoQueues
                  (<[2%nat := fifo_enqueue any_io_task (filled old_io_task 1)]>)
                  dispatcher_lb |},
     [on_shared 1 (tryEnqueue_ any_io_task false);
      on_shared 2 (tryEnqueue_ any_io_task true)]).
Proof. vm_compute. reflexivity. Qed.

(** With every shared queue full the loop does not return (see
    [postAsyncIo_loop_spins]): fifty attempts are all refused. *)
Example postAsyncIo_spins_when_all_full :
  (postAsyncIo io_queueId Any_id 50 (Some any_io_task)
     {| static_index := 0;
        this := set_sharedIoQueues (fun _ => [bounded old_io_task 1 1; bounded old_io_task 0 0])
                                   dispatcher_lb |}).1.1
  = OutOfFuel.
Proof. vm_compute. reflexivity. Qed.

(** A task asking for queue -5 of the four queues of scenario S3. *)
Lemma post_out_of_bounds_witness :
  post (IoTask := SimpleIoTask) Any_id (Some (mkTask 8 (-5) false)) dispatcher_S3
  = (Throw (if (getQueueId (mkTask 8 (-5) false) <? 0)%Z then out_of_range
            else runtime_error "Queue id out of bounds"), dispatcher_S3, []).
Proof.
  refine (post_out_of_bounds Any_id dispatcher_S3 (mkTask 8 (-5) false) _ _ _ _).
  - vm_compute. congruence.
  - vm_compute. split; congruence.
  - vm_compute. congruence.
  - left. vm_compute. reflexivity.
Defined.

(** The two ways an id is rejected, and the sentinel [All]. *)
Example post_rejects_ids :
  post (IoTask := SimpleIoTask) Any_id (Some (mkTask 8 4 false)) dispatcher_S3
    = (Throw (runtime_error "Queue id out of bounds"), dispatcher_S3, [])
  /\ post (IoTask := SimpleIoTask) Any_id (Some (mkTask 8 (-5) false)) dispatcher_S3
    = (Throw out_of_range, dispatcher_S3, [])
  /\ post (IoTask := SimpleIoTask) Any_id (Some (mkTask 8 All_id false)) dispatcher_S3
    = (Throw out_of_range, dispatcher_S3, []).
Proof. repeat split; vm_compute; reflexivity. Qed.

(** Construction from [config_4_2] on a machine with eight cores. *)
Lemma configured_range_for_any_witness :
  exists d : DispatcherCore (Fifo Task) (Fifo SimpleIoTask),
    DispatcherCore_of_config 8 (fun _ => filled old_task 0) (fun _ _ => filled old_io_task 0)
                             config_4_2 = Ok d /\
    let n := vec_size (_coroQueues d) in
    let lo := (coroQueueIdRangeForAny config_4_2).1 in
    let hi := (coroQueueIdRangeForAny config_4_2).2 in
    n = coroutine_thread_count 8 (numCoroutineThreads config_4_2) /\
    (hi <= lo \/ n <= lo \/ n < hi -> getCoroQueueIdRangeForAny d = (0, n)) /\
    (lo < hi /\ lo < n /\ hi <= n -> getCoroQueueIdRangeForAny d = (lo, hi)).
Proof.
  refine (configured_range_for_any 8 (fun _ => filled old_task 0)
            (fun _ _ => filled old_io_task 0) config_4_2 _).
  intros _. vm_compute. reflexivity.
Defined.

(** The configured range [[1, 3)] is kept with four queues, and replaced
    by [[0, 4)] when it is empty or reaches past the queues. *)
Example configured_ranges :
  (getCoroQueueIdRangeForAny <$>
     [DispatcherCore_of_config 8 (fun _ => filled old_task 0) (fun _ _ => filled old_io_task 0)
        config_4_2;
      DispatcherCore_of_config 8 (fun _ => filled old_task 0) (fun _ _ => filled old_io_task 0)
        (mkConfiguration 4 2 false (3, 3));
      DispatcherCore_of_config 8 (fun _ => filled old_task 0) (fun _ _ => filled old_io_task 0)
        (mkConfiguration 4 2 false (2, 5));
      DispatcherCore_of_config 8 (fun _ => filled old_task 0) (fun _ _ => filled old_io_task 0)
        (mkConfiguration 4 2 false (4, 9))] ≫= (fun r => match r with Ok d => [d] | _ => [] end))
  = [(1, 3); (0, 4); (0, 4); (0, 4)].
Proof. vm_compute. reflexivity. Qed.

(** [DispatcherCore(-1, 0, true)] on a machine with eight cores. *)
Lemma thread_counts_after_construction_witness :
  exists d : DispatcherCore (Fifo Task) (Fifo SimpleIoTask),
    DispatcherCore_new 8 (filled old_task 0) (filled old_io_task 0)
                       (fun _ _ => filled old_io_task 0) config_4_2 (-1) 0 true = Ok d /\
    getNumCoroutineThreads d =
      (if (-1 =? -1)%Z then Z.of_N 8 else if (-1 =? 0)%Z then 1%Z else (-1)%Z) /\
    getNumIoThreads d = (if (0 <=? 0)%Z then 1%Z else 0%Z).
Proof.
  refine (thread_counts_after_construction 8 (filled old_task 0) (filled old_io_task 0)
            (fun _ _ => filled old_io_task 0) config_4_2 (-1) 0 true _ _ _ _).
  - vm_compute. split; congruence.
  - vm_compute. split; congruence.
  - intros _. vm_compute. congruence.
  - intros _. vm_compute. reflexivity.
Defined.

(** [terminate] on a dispatcher with two coroutine, three private and two
    shared queues: seven calls in the order of the vectors the first time,
    none the second time. *)
Example terminate_twice :
  (terminate (IoTask := SimpleIoTask) dispatcher_io).2
    = [on_coro 0 terminate_; on_coro 1 terminate_;
       on_io 0 terminate_; on_io 1 terminate_; on_io 2 terminate_;
       on_shared 0 terminate_; on_shared 1 terminate_]
  /\ terminate (IoTask := SimpleIoTask) (terminate (IoTask := SimpleIoTask) dispatcher_io).1.2
    = (Ok tt, (terminate (IoTask := SimpleIoTask) dispatcher_io).1.2, []).
Proof. split; vm_compute; reflexivity. Qed.

(** The aggregates of [dispatcher_io], whose queues hold 1, 0, then 0, 2, 0,
    then 1, 0 tasks; and the refusal of a queue id with the type [All]. *)
Example introspection_of_dispatcher_io :
  (size (IoTask := SimpleIoTask) All_id Any_id All All_id dispatcher_io).1.1 = Ok 4
  /\ (empty (IoTask := SimpleIoTask) All_id Any_id All All_id dispatcher_io).1.1 = Ok false
  /\ (stats (IoTask := SimpleIoTask) All_id Any_id All All_id dispatcher_io).1.1 = Ok 4
  /\ (size (IoTask := SimpleIoTask) All_id Any_id All 0 dispatcher_io).1.1
       = Throw (runtime_error "Cannot specify queue id")
  /\ (empty (IoTask := SimpleIoTask) All_id Any_id All Any_id dispatcher_io).1.1
       = Throw (runtime_error "Cannot specify queue id").
Proof. repeat split; vm_compute; reflexivity. Qed.

(** Outside the invariant: a dispatcher without coroutine queues, which
    the constructor builds only when the hardware concurrency is reported
    as 0, has an empty range for [Any]; [post] then reads no queue and
    [vector::at] rejects index 0. *)
Example post_any_without_queues :
  DispatcherCore_new 0 (filled old_task 0) (filled old_io_task 0)
                     (fun _ _ => filled old_io_task 0) config_4_2 (-1) 1 false
    = Ok dispatcher_no_coro
  /\ post (IoTask := SimpleIoTask) Any_id (Some any_task) dispatcher_no_coro
    = (Throw out_of_range, dispatcher_no_coro, []).
Proof. split; vm_compute; reflexivity. Qed.

(** ** The further properties on concrete dispatchers *)

(** The reference queues obey the laws the conservation and agreement
    theorems assume. *)
Lemma fifo_enqueue_adds_one {T} (t : T) (q : Fifo T) :
  q_size (q_enqueue t q) = q_size q + 1.
Proof. cbn. rewrite length_app. cbn. lia. Qed.

Lemma fifo_tryEnqueue_adds_one {T} (t : T) (q q' : Fifo T) :
  q_tryEnqueue t q = Some q' -> q_size q' = q_size q + 1.
Proof.
  cbn. unfold fifo_tryEnqueue. destruct (_ <? _); [| discriminate].
  intros [= <-]. apply fifo_enqueue_adds_one.
Qed.

Lemma fifo_empty_is_size_0 {T} (q : Fifo T) : q_empty q = (q_size q =? 0).
Proof. cbn. destruct (items q); reflexivity. Qed.

Lemma range_valid_io : range_valid dispatcher_io.
Proof. unfold range_valid. repeat split; vm_compute; congruence. Qed.

Lemma depths_below_max_io : depths_below_max dispatcher_io.
Proof.
  intros q Hq. cbn in Hq.
  repeat (apply elem_of_cons in Hq as [-> | Hq]; [vm_compute; reflexivity |]).
  apply elem_of_nil in Hq. contradiction.
Qed.

(** A task naming queue 2 of scenario S3. *)
Lemma post_to_named_queue_witness :
  post (IoTask := SimpleIoTask) Any_id (Some (mkTask 8 2 false)) dispatcher_S3 =
    (Ok tt,
     set_coroQueues (<[2%nat := fifo_enqueue (mkTask 8 2 false) (filled old_task 2)]>)
                    dispatcher_S3,
     [on_coro 2 (enqueue_ (mkTask 8 2 false))]).
Proof.
  refine (post_to_named_queue Any_id dispatcher_S3 (mkTask 8 2 false) (filled old_task 2)
            _ _ _ eq_refl); vm_compute; congruence.
Defined.

(** On [dispatcher_io] coroutine queue 1 is the first empty one. *)
Lemma post_any_takes_first_empty_queue_witness :
  post (IoTask := SimpleIoTask) Any_id (Some any_task) dispatcher_io =
    (Ok tt,
     set_coroQueues
       (<[1%nat := q_enqueue (setQueueId 1 any_task) (filled old_task 0)]>) dispatcher_io,
     size_reads 0 1 ++ [on_coro 1 (enqueue_ (setQueueId 1 any_task))]).
Proof.
  refine (post_any_takes_first_empty_queue Any_id dispatcher_io any_task 1
            (filled old_task 0) eq_refl range_valid_io depths_below_max_io _ eq_refl eq_refl _).
  - vm_compute. split; congruence.
  - intros i qi Hi Hqi. assert (i = 0) as -> by (cbn in Hi; lia).
    injection Hqi as <-. vm_compute. congruence.
Defined.

(** The [Any] task of scenario S3 adds one task to its coroutine queues. *)
Lemma post_adds_one_task_witness :
  sum_sizes (_coroQueues
               (set_coroQueues (<[1%nat := fifo_enqueue (mkTask 7 1 true) (filled old_task 2)]>)
                               dispatcher_S3))
    = sum_sizes (_coroQueues dispatcher_S3) + 1.
Proof.
  refine (proj1 (post_adds_one_task (IoTask := SimpleIoTask) Any_id dispatcher_S3 any_task
                   (set_coroQueues
                      (<[1%nat := fifo_enqueue (mkTask 7 1 true) (filled old_task 2)]>)
                      dispatcher_S3)
                   [on_coro 0 size_; on_coro 1 size_; on_coro 2 size_; on_coro 3 size_;
                    on_coro 1 (enqueue_ (mkTask 7 1 true))]
                   fifo_enqueue_adds_one _)).
  vm_compute. reflexivity.
Defined.

(** An I/O task naming private queue 1 of [dispatcher_io]. *)
Lemma postAsyncIo_to_named_queue_witness :
  postAsyncIo io_queueId Any_id 0 (Some (mkIoTask 9 1))
      {| static_index := 5; this := dispatcher_io |} =
    (Ok tt,
     {| static_index := 5;
        this := set_ioQueues (<[1%nat := q_enqueue (mkIoTask 9 1) (filled old_io_task 2)]>)
                             dispatcher_io |},
     [on_io 1 (enqueue_ (mkIoTask 9 1))]).
Proof.
  refine (postAsyncIo_to_named_queue io_queueId Any_id 0
            {| static_index := 5; this := dispatcher_io |} (mkIoTask 9 1)
            (filled old_io_task 2) _ _ _ eq_refl); vm_compute; congruence.
Defined.

(** An I/O task naming private queue 3 of the three of [dispatcher_io]. *)
Lemma postAsyncIo_out_of_bounds_witness :
  postAsyncIo io_queueId Any_id 0 (Some (mkIoTask 9 3))
      {| static_index := 5; this := dispatcher_io |} =
    (Throw (runtime_error "Queue id out of bounds"),
     {| static_index := 5; this := dispatcher_io |}, []).
Proof.
  refine (postAsyncIo_out_of_bounds io_queueId Any_id 0
            {| static_index := 5; this := dispatcher_io |} (mkIoTask 9 3) _ _ _ _).
  - vm_compute. congruence.
  - vm_compute. split; congruence.
  - vm_compute. congruence.
  - right. vm_compute. congruence.
Defined.

(** Three attempts on [dispatcher_full], whose shared queues are full. *)
Lemma postAsyncIo_spins_while_all_refuse_witness :
  postAsyncIo io_queueId Any_id 3 (Some any_io_task)
      {| static_index := 0; this := dispatcher_full |} =
    (OutOfFuel,
     {| static_index := advance 0 3; this := dispatcher_full |},
     refusals dispatcher_full any_io_task 0 4).
Proof.
  refine (postAsyncIo_spins_while_all_refuse io_queueId Any_id 3
            {| static_index := 0; this := dispatcher_full |} any_io_task
            eq_refl eq_refl eq_refl eq_refl _).
  intros q Hq. cbn in Hq.
  repeat (apply elem_of_cons in Hq as [-> | Hq]; [vm_compute; reflexivity |]).
  apply elem_of_nil in Hq. contradiction.
Defined.

(** Coroutine queue 2 of scenario S3 holds two tasks. *)
Lemma coroutine_queue_introspection_witness :
  size (IoTask := SimpleIoTask) All_id Any_id Coro 2 dispatcher_S3
    = (Ok 2, dispatcher_S3, []).
Proof.
  refine (proj1 (proj1 (coroutine_queue_introspection All_id Any_id dispatcher_S3 2 _ _)
                   (filled old_task 2) _ eq_refl)); vm_compute; congruence.
Defined.

(** The shared queues of [dispatcher_io] hold one task, its I/O queues
    three. *)
Lemma io_queue_aggregates_witness :
  size (IoTask := SimpleIoTask) All_id Any_id Io All_id dispatcher_io
    = (Ok 3, dispatcher_io, [])
  /\ size (IoTask := SimpleIoTask) All_id Any_id Io Any_id dispatcher_io
    = (Ok 1, dispatcher_io, []).
Proof.
  refine (let H := io_queue_aggregates (IoTask := SimpleIoTask) All_id Any_id dispatcher_io _
          in conj (proj1 H) (proj1 (proj2 H))).
  vm_compute. congruence.
Defined.

(** Private queue 1 of [dispatcher_io] holds two tasks. *)
Lemma private_queue_introspection_witness :
  size (IoTask := SimpleIoTask) All_id Any_id Io 1 dispatcher_io
    = (Ok 2, dispatcher_io, []).
Proof.
  refine (proj1 (proj1 (private_queue_introspection All_id Any_id dispatcher_io 1 _ _ _ _)
                   (filled old_io_task 2) _ eq_refl)).
  - vm_compute. congruence.
  - vm_compute. congruence.
  - vm_compute. split; congruence.
  - vm_compute. congruence.
  - vm_compute. congruence.
Defined.

(** [dispatcher_io] holds four tasks and is not empty. *)
Lemma empty_agrees_with_size_witness :
  size (IoTask := SimpleIoTask) All_id Any_id All All_id dispatcher_io
    = (Ok 4, dispatcher_io, [])
  /\ empty (IoTask := SimpleIoTask) All_id Any_id All All_id dispatcher_io
    = (Ok false, dispatcher_io, []).
Proof.
  refine (empty_agrees_with_size (IoTask := SimpleIoTask) All_id Any_id dispatcher_io
            fifo_empty_is_size_0 fifo_empty_is_size_0 _).
  vm_compute. reflexivity.
Defined.

(** Construction from [config_4_2] on a machine with eight cores. *)
Lemma construction_from_config_invariant_witness :
  exists d : DispatcherCore (Fifo Task) (Fifo SimpleIoTask),
    DispatcherCore_of_config 8 (fun _ => filled old_task 0) (fun _ _ => filled old_io_task 0)
                             config_4_2 = Ok d /\
    _terminated d = false /\
    _loadBalanceSharedIoQueues d = false /\
    vec_size (_ioQueues d) = io_thread_count (numIoThreads config_4_2) /\
    vec_size (_sharedIoQueues d) = vec_size (_ioQueues d) /\
    0 < vec_size (_ioQueues d) /\
    (0 < vec_size (_coroQueues d) ->
     (_coroQueueIdRangeForAny d).1 < (_coroQueueIdRangeForAny d).2
     /\ (_coroQueueIdRangeForAny d).2 <= vec_size (_coroQueues d)).
Proof.
  refine (construction_from_config_invariant 8 (fun _ => filled old_task 0)
            (fun _ _ => filled old_io_task 0) config_4_2 _ _).
  - vm_compute. split; congruence.
  - intros _. vm_compute. reflexivity.
Defined.

Lemma thread_counts_after_construction_from_config_witness :
  exists d : DispatcherCore (Fifo Task) (Fifo SimpleIoTask),
    DispatcherCore_of_config 8 (fun _ => filled old_task 0) (fun _ _ => filled old_io_task 0)
                             config_4_2 = Ok d /\
    getNumCoroutineThreads d = 4%Z /\ getNumIoThreads d = 2%Z.
Proof.
  refine (thread_counts_after_construction_from_config 8 (fun _ => filled old_task 0)
            (fun _ _ => filled old_io_task 0) config_4_2 _ _ _ _).
  - vm_compute. split; congruence.
  - vm_compute. split; congruence.
  - intros H. vm_compute in H. discriminate.
  - intros _. vm_compute. reflexivity.
Defined.

(** [DispatcherCore(3, 0, true)] on a machine with eight cores. *)
Lemma default_construction_invariant_witness :
  exists d : DispatcherCore (Fifo Task) (Fifo SimpleIoTask),
    DispatcherCore_new 8 (filled old_task 0) (filled old_io_task 0)
                       (fun _ _ => filled old_io_task 0) config_4_2 3 0 true = Ok d /\
    _terminated d = false /\
    _loadBalanceSharedIoQueues d = false /\
    vec_size (_ioQueues d) = io_thread_count 0 /\
    vec_size (_sharedIoQueues d) = vec_size (_ioQueues d) /\
    0 < vec_size (_ioQueues d) /\
    getCoroQueueIdRangeForAny d = (0, vec_size (_coroQueues d)).
Proof.
  refine (default_construction_invariant 8 (filled old_task 0) (filled old_io_task 0)
            (fun _ _ => filled old_io_task 0) config_4_2 3 0 true _ _).
  - vm_compute. split; congruence.
  - intros _. vm_compute. reflexivity.
Defined.

(** Four queues on two cores: queue 3 is pinned to core 1. *)
Lemma pinning_goes_round_the_cores_witness :
  exists d : DispatcherCore (Fifo Task) (Fifo SimpleIoTask),
    DispatcherCore_new 2 (filled old_task 0) (filled old_io_task 0)
                       (fun _ _ => filled old_io_task 0) config_4_2 4 1 true = Ok d /\
    _coroQueues d !! 3%nat = Some (fifo_pin 1 (filled old_task 0)).
Proof.
  refine (proj1 (pinning_goes_round_the_cores 2 (filled old_task 0)
                   (fun _ => filled old_task 0) (filled old_io_task 0)
                   (fun _ _ => filled old_io_task 0) config_4_2 4 1 config_4_2 3 _) _);
    vm_compute; reflexivity.
Defined.

(** Two queues to pin on a machine that reports no core. *)
Lemma pinning_without_cores_is_undefined_witness :
  DispatcherCore_new (TaskQueue := Fifo Task) (IoQueue := Fifo SimpleIoTask)
                     0 (filled old_task 0) (filled old_io_task 0)
                     (fun _ _ => filled old_io_task 0) config_4_2 2 1 true = Undefined.
Proof.
  refine (proj1 (pinning_without_cores_is_undefined 0 (filled old_task 0)
                   (filled old_io_task 0) (fun _ _ => filled old_io_task 0) config_4_2 2 1
                   eq_refl) _).
  vm_compute. reflexivity.
Defined.

(** After [resetStats] the statistics of coroutine queue 0 of
    [dispatcher_counted], which had counted nine tasks, are back to 0,
    and so is the aggregate. *)
Lemma resetStats_resets_every_queue_witness :
  (0 : N) = stats_default
  /\ stats (IoTask := SimpleIoTask) All_id Any_id All All_id
           (resetStats (IoTask := SimpleIoTask) dispatcher_counted).1.2
     = (Ok stats_default, (resetStats (IoTask := SimpleIoTask) dispatcher_counted).1.2, []).
Proof.
  refine (resetStats_resets_every_queue (IoTask := SimpleIoTask) All_id Any_id
            dispatcher_counted Coro 0 0 _ _ _ _ _).
  - intros q. reflexivity.
  - intros q. reflexivity.
  - reflexivity.
  - reflexivity.
  - vm_compute. reflexivity.
Defined.

(** [resetStats] on [dispatcher_counted] changes no size. *)
Lemma resetStats_keeps_sizes_witness :
  (size (IoTask := SimpleIoTask) All_id Any_id All All_id
        (resetStats (IoTask := SimpleIoTask) dispatcher_counted).1.2).1.1
    = (size (IoTask := SimpleIoTask) All_id Any_id All All_id dispatcher_counted).1.1
  /\ (empty (IoTask := SimpleIoTask) All_id Any_id All All_id
            (resetStats (IoTask := SimpleIoTask) dispatcher_counted).1.2).1.1
    = (empty (IoTask := SimpleIoTask) All_id Any_id All All_id dispatcher_counted).1.1.
Proof.
  refine (resetStats_keeps_sizes (IoTask := SimpleIoTask) All_id Any_id dispatcher_counted
            All All_id _ _ _ _); intros q; reflexivity.
Defined.

(** The submission on [dispatcher_lb] that skips the full queue adds one
    task to its I/O queues. *)
Lemma postAsyncIo_adds_one_task_witness :
  sum_sizes (_ioQueues dispatcher_lb)
  + sum_sizes (_sharedIoQueues
                 (set_sharedIoQueues
                    (<[2%nat := fifo_enqueue any_io_task (filled old_io_task 1)]>)
                    dispatcher_lb))
  = sum_sizes (_ioQueues dispatcher_lb) + sum_sizes (_sharedIoQueues dispatcher_lb) + 1.
Proof.
  assert (Hsignal : forall (b : bool) (q : Fifo SimpleIoTask),
             q_size (q_signalEmptyCondition b q) = q_size q)
    by (intros b q; reflexivity).
  assert (Hrun : postAsyncIo io_queueId Any_id 2 (Some any_io_task)
                     {| static_index := 0; this := dispatcher_lb |}
                 = (Ok tt,
                    {| static_index := 2;
                       this := set_sharedIoQueues
                                 (<[2%nat := fifo_enqueue any_io_task (filled old_io_task 1)]>)
                                 dispatcher_lb |},
                    [on_shared 1 (tryEnqueue_ any_io_task false);
                     on_shared 2 (tryEnqueue_ any_io_task true)]))
    by (vm_compute; reflexivity).
  exact (proj1 (postAsyncIo_adds_one_task io_queueId Any_id 2 _ _ any_io_task _
                  fifo_enqueue_adds_one fifo_tryEnqueue_adds_one Hsignal Hrun)).
Defined.
